(** * FastAccelStepper: the logarithmic "poor man's float" and the ramp generator

    A shallow embedding of [src/PoorManFloat.cpp] and [src/RampGenerator.cpp].
    Fixed-width C++ integers are carried as [Z] with the wrap-around of every
    conversion written out. *)

From Stdlib Require Import ZArith List Bool Lia.
Import ListNotations.
Local Open Scope Z_scope.

(** ** Fixed-width integers *)

Module Int.

(** Conversion to an unsigned type keeps the low [w] bits. *)
Definition u8 (z : Z) : Z := Z.land z 0xff.
Definition u16 (z : Z) : Z := Z.land z 0xffff.
Definition u32 (z : Z) : Z := Z.land z 0xffffffff.

(** Conversion to a signed type reads the low [w] bits in two's
    complement. *)
Definition i8 (z : Z) : Z := Z.land (z + 0x80) 0xff - 0x80.
Definition i16 (z : Z) : Z := Z.land (z + 0x8000) 0xffff - 0x8000.
Definition i32 (z : Z) : Z := Z.land (z + 0x80000000) 0xffffffff - 0x80000000.

Definition is_u8 (z : Z) : Prop := 0 <= z < 256.
Definition is_u16 (z : Z) : Prop := 0 <= z < 65536.
Definition is_u32 (z : Z) : Prop := 0 <= z < 4294967296.
Definition is_i16 (z : Z) : Prop := -32768 <= z < 32768.
Definition is_i32 (z : Z) : Prop := -2147483648 <= z < 2147483648.

End Int.

(** ** PoorManFloat.cpp *)

Module PoorManFloat.
Import Int.

Definition log2_minus_x_plus_one_shifted_by_1 : list Z :=
 [0;  1;  2;  3;  3;  4;  5;  6;  7;  8;  8;  9;  10; 11; 11; 12; 13; 13; 14;
  15; 16; 16; 17; 18; 18; 19; 19; 20; 21; 21; 22; 22; 23; 24; 24; 25; 25; 26;
  26; 27; 27; 28; 28; 29; 29; 30; 30; 31; 31; 31; 32; 32; 33; 33; 33; 34; 34;
  34; 35; 35; 36; 36; 36; 37; 37; 37; 37; 38; 38; 38; 39; 39; 39; 39; 40; 40;
  40; 40; 40; 41; 41; 41; 41; 41; 42; 42; 42; 42; 42; 42; 43; 43; 43; 43; 43;
  43; 43; 43; 43; 43; 44; 44; 44; 44; 44; 44; 44; 44; 44; 44; 44; 44; 44; 44;
  44; 44; 44; 44; 44; 44; 44; 44; 44; 44; 44; 44; 44; 44; 44; 43; 43; 43; 43;
  43; 43; 43; 43; 43; 42; 42; 42; 42; 42; 42; 42; 41; 41; 41; 41; 41; 41; 40;
  40; 40; 40; 40; 39; 39; 39; 39; 39; 38; 38; 38; 38; 37; 37; 37; 37; 36; 36;
  36; 36; 35; 35; 35; 35; 34; 34; 34; 33; 33; 33; 32; 32; 32; 31; 31; 31; 30;
  30; 30; 29; 29; 29; 28; 28; 28; 27; 27; 26; 26; 26; 25; 25; 24; 24; 24; 23;
  23; 22; 22; 22; 21; 21; 20; 20; 19; 19; 19; 18; 18; 17; 17; 16; 16; 15; 15;
  14; 14; 14; 13; 13; 12; 12; 11; 11; 10; 10; 9;  9;  8;  8;  7;  6;  6;  5;
  5;  4;  4;  3;  3;  2;  2;  1;  1].

Definition x_minus_pow2_of_x_minus_one_shifted_by_1 : list Z :=
 [0;  1;  1;  2;  2;  3;  4;  4;  5;  5;  6;  7;  7;  8;  8;  9;  9;  10; 10;
  11; 12; 12; 13; 13; 14; 14; 15; 15; 16; 16; 17; 17; 18; 18; 19; 19; 20; 20;
  21; 21; 21; 22; 22; 23; 23; 24; 24; 25; 25; 25; 26; 26; 27; 27; 27; 28; 28;
  29; 29; 29; 30; 30; 30; 31; 31; 31; 32; 32; 32; 33; 33; 33; 34; 34; 34; 35;
  35; 35; 36; 36; 36; 36; 37; 37; 37; 38; 38; 38; 38; 38; 39; 39; 39; 39; 40;
  40; 40; 40; 40; 41; 41; 41; 41; 41; 41; 42; 42; 42; 42; 42; 42; 42; 43; 43;
  43; 43; 43; 43; 43; 43; 43; 44; 44; 44; 44; 44; 44; 44; 44; 44; 44; 44; 44;
  44; 44; 44; 44; 44; 44; 44; 44; 44; 44; 44; 44; 44; 44; 44; 44; 44; 43; 43;
  43; 43; 43; 43; 43; 43; 43; 43; 42; 42; 42; 42; 42; 42; 41; 41; 41; 41; 41;
  41; 40; 40; 40; 40; 39; 39; 39; 39; 38; 38; 38; 38; 37; 37; 37; 37; 36; 36;
  36; 35; 35; 35; 34; 34; 34; 33; 33; 32; 32; 32; 31; 31; 30; 30; 30; 29; 29;
  28; 28; 27; 27; 27; 26; 26; 25; 25; 24; 24; 23; 23; 22; 22; 21; 20; 20; 19;
  19; 18; 18; 17; 16; 16; 15; 15; 14; 13; 13; 12; 11; 11; 10; 9;  9;  8;  7;
  7;  6;  5;  5;  4;  3;  2;  2;  1].

(** [pgm_read_byte_near(&table[index])], [index] being a [uint8_t]. *)
Definition pgm_read_byte_near (table : list Z) (index : Z) : Z :=
  nth (Z.to_nat index) table 0.

(** [pmf_logarithmic pmfl_from(uint8_t x)].  [x <<= k] is computed in [int]
    and stored back into the [uint8_t]; [res] is a [uint16_t]; the value
    returned is converted to the [int16_t] behind [pmf_logarithmic]. *)
Definition pmfl_from_u8 (x : Z) : Z :=
  let finish (res : Z) : Z :=
    let index := u8 (Z.land res 0x00ff) in
    let offset := pgm_read_byte_near log2_minus_x_plus_one_shifted_by_1 index in
    let res := u16 (Z.shiftl res 1) in
    let res := u16 (res + offset) in
    i16 res in
  if Z.land x 0xf0 =? 0 then
    if Z.land x 0x0c =? 0 then
      if Z.land x 0x02 =? 0 then
        if x =? 0 then i16 0x8000
        else
          let x := 0 in
          finish 0x0000
      else
        let x := u8 (Z.shiftl x 7) in
        finish (Z.lor x 0x0100)
    else
      if Z.land x 0x08 =? 0 then
        let x := u8 (Z.shiftl x 6) in
        finish (Z.lor x 0x0200)
      else
        let x := u8 (Z.shiftl x 5) in
        finish (Z.lor x 0x0300)
  else
    if Z.land x 0xc0 =? 0 then
      if Z.land x 0x20 =? 0 then
        let x := u8 (Z.shiftl x 4) in
        finish (Z.lor x 0x0400)
      else
        let x := u8 (Z.shiftl x 3) in
        finish (Z.lor x 0x0500)
    else
      if Z.land x 0x80 =? 0 then
        let x := u8 (Z.shiftl x 2) in
        finish (Z.lor x 0x0600)
      else
        let x := u8 (Z.shiftl x 1) in
        finish (Z.lor x 0x0700).

(** [pmf_logarithmic pmfl_from(uint16_t x)]. *)
Definition pmfl_from_u16 (x : Z) : Z :=
  if Z.land x 0xff00 =? 0 then pmfl_from_u8 (u8 x)
  else
    let '(x, exponent) :=
      if negb (Z.land x 0xf000 =? 0) then
        if negb (Z.land x 0xc000 =? 0) then
          if negb (Z.land x 0x8000 =? 0) then (Z.shiftr x 6, 15)
          else (Z.shiftr x 5, 14)
        else
          if negb (Z.land x 0x2000 =? 0) then (Z.shiftr x 4, 13)
          else (Z.shiftr x 3, 12)
      else
        if negb (Z.land x 0x0c00 =? 0) then
          if negb (Z.land x 0x0800 =? 0) then (Z.shiftr x 2, 11)
          else (Z.shiftr x 1, 10)
        else
          if negb (Z.land x 0x0200 =? 0) then (x, 9)
          else (u16 (Z.shiftl x 1), 8) in
    let index := u8 (Z.shiftr x 1) in
    let offset := pgm_read_byte_near log2_minus_x_plus_one_shifted_by_1 index in
    let x := u16 (x + offset) in
    let x := u16 (x - 0x200) in
    let x := u16 (x + u16 (Z.shiftl exponent 9)) in
    i16 x.

(** [pmf_logarithmic pmfl_from(uint32_t x)]. *)
Definition pmfl_from_u32 (x : Z) : Z :=
  if Z.land x 0xffff0000 =? 0 then pmfl_from_u16 (u16 x)
  else if Z.land x 0xff000000 =? 0 then
    let w := u16 (Z.shiftr x 8) in
    i16 (pmfl_from_u16 w + 0x1000)
  else
    let w := u16 (Z.shiftr x 16) in
    i16 (pmfl_from_u16 w + 0x2000).

(** [pmfl_shl] and [pmfl_shr]; [n] is a [uint8_t]. *)
Definition pmfl_shl (x n : Z) : Z := i16 (x + Z.shiftl (i16 n) 9).
Definition pmfl_shr (x n : Z) : Z := i16 (x - Z.shiftl (i16 n) 9).

(** [uint16_t pmfl_to_u16(pmf_logarithmic x)].  The local [x] stays an
    [int16_t]: every compound assignment converts back to it. *)
Definition pmfl_to_u16 (x : Z) : Z :=
  if x <? 0 then 0
  else if x >=? 0x2000 then 0xffff
  else
    let exponent := u8 (Z.shiftr (u16 x) 9) in
    let x := i16 (Z.land x 0x01ff) in
    let index := u8 (Z.shiftr (u16 x) 1) in
    let offset :=
      pgm_read_byte_near x_minus_pow2_of_x_minus_one_shifted_by_1 index in
    let x := i16 (x + 0x200) in
    let x := i16 (x - offset) in
    let x :=
      if exponent >? 9 then i16 (Z.shiftl x (exponent - 9))
      else if exponent <? 9 then
        let x := i16 (x + 1) in
        i16 (Z.shiftr x (9 - exponent))
      else x in
    u16 x.

(** [uint32_t pmfl_to_u32(pmf_logarithmic x)]. *)
Definition pmfl_to_u32 (x : Z) : Z :=
  if x <? 0 then 0
  else if x >=? 0x4000 then 0xffffffff
  else
    let exponent := u8 (Z.shiftr (u16 x) 9) in
    if exponent <? 0x10 then u32 (pmfl_to_u16 x)
    else
      let shift := u8 (exponent - 0x0f) in
      let x := pmfl_shr x shift in
      let res := u32 (pmfl_to_u16 x) in
      u32 (Z.shiftl res shift).

Definition pmfl_multiply (x y : Z) : Z := i16 (x + y).
Definition pmfl_reciprocal (x : Z) : Z := i16 (- x).
Definition pmfl_square (x : Z) : Z :=
  if x >=? 0x4000 then 0x7fff
  else if x <=? - 0x4000 then i16 0x8001
  else i16 (x + x).
Definition pmfl_rsquare (x : Z) : Z := pmfl_reciprocal (pmfl_square x).
Definition pmfl_divide (x y : Z) : Z := i16 (x - y).

End PoorManFloat.

(** ** RampGenerator.cpp *)

Module RampGenerator.
Import Int.

(** *** The records of RampGenerator.h *)

(** Modelled from the spec: the header declaring [struct ramp_parameters_s]
    is not among the sources.  The fields are the ones the methods of
    RampGenerator.cpp read and write ([target_pos], [min_travel_ticks],
    [keep_running], [keep_running_count_up], [apply], [any_change],
    [recalc_ramp_steps]) together with the acceleration that the data model
    lists for the parameter set. *)
Record ramp_parameters_s : Type := mk_parameters {
  target_pos : Z;
  p_acceleration : Z;
  min_travel_ticks : Z;
  keep_running : bool;
  keep_running_count_up : bool;
  any_change : bool;
  recalc_ramp_steps : bool;
  apply : bool
}.

(** Modelled from the spec: [_ro.config] holds the applied copy of the
    parameters and what [update()] caches from them. *)
Record ramp_config_s : Type := mk_config {
  parameters : ramp_parameters_s;
  ramp_steps : Z
}.

(** Modelled from the spec: the read side is the applied configuration,
    [force_stop] and the two immediate-stop conditions. *)
Record ramp_ro_s : Type := mk_ro {
  config : ramp_config_s;
  force_stop : bool;
  force_immediate_stop : bool;
  incomplete_immediate_stop : bool
}.

(** Modelled from the spec: the write side is the progress of the ramp in
    flight; [ramp_state] is the bit-field of phase and direction that
    [rampState()] reads. *)
Record ramp_rw_s : Type := mk_rw {
  ramp_state : Z;
  performed_ramp_up_steps : Z;
  pause_ticks_left : Z;
  curr_ticks : Z
}.

(** [struct stepper_command_s], with the fields the tests initialise. *)
Record stepper_command_s : Type := mk_command {
  ticks : Z;
  steps : Z;
  state : Z;
  count_up : bool
}.

Record NextCommand : Type := mk_next {
  command : stepper_command_s;
  rw : ramp_rw_s
}.

Record queue_end_s : Type := mk_queue_end { pos : Z }.

(** The data members of [class RampGenerator] that the methods touch. *)
Record RampGenerator : Type := mk_generator {
  acceleration : Z;
  _parameters : ramp_parameters_s;
  _ro : ramp_ro_s;
  _rw : ramp_rw_s
}.

(** Field assignments. *)
Definition set_keep_running (b : bool) (p : ramp_parameters_s) :=
  mk_parameters (target_pos p) (p_acceleration p) (min_travel_ticks p) b
    (keep_running_count_up p) (any_change p) (recalc_ramp_steps p) (apply p).
Definition set_keep_running_count_up (b : bool) (p : ramp_parameters_s) :=
  mk_parameters (target_pos p) (p_acceleration p) (min_travel_ticks p)
    (keep_running p) b (any_change p) (recalc_ramp_steps p) (apply p).
Definition set_any_change (b : bool) (p : ramp_parameters_s) :=
  mk_parameters (target_pos p) (p_acceleration p) (min_travel_ticks p)
    (keep_running p) (keep_running_count_up p) b (recalc_ramp_steps p)
    (apply p).
Definition set_recalc_ramp_steps (b : bool) (p : ramp_parameters_s) :=
  mk_parameters (target_pos p) (p_acceleration p) (min_travel_ticks p)
    (keep_running p) (keep_running_count_up p) (any_change p) b (apply p).
Definition set_apply (b : bool) (p : ramp_parameters_s) :=
  mk_parameters (target_pos p) (p_acceleration p) (min_travel_ticks p)
    (keep_running p) (keep_running_count_up p) (any_change p)
    (recalc_ramp_steps p) b.

Definition set_parameters (p : ramp_parameters_s) (c : ramp_config_s) :=
  mk_config p (ramp_steps c).
Definition set_config (c : ramp_config_s) (r : ramp_ro_s) :=
  mk_ro c (force_stop r) (force_immediate_stop r)
    (incomplete_immediate_stop r).
Definition set_force_stop (b : bool) (r : ramp_ro_s) :=
  mk_ro (config r) b (force_immediate_stop r) (incomplete_immediate_stop r).

Definition set_ticks (t : Z) (c : stepper_command_s) :=
  mk_command t (steps c) (state c) (count_up c).

(** *** What RampGenerator.cpp calls and does not define

    The inline methods of the three records, the free function
    [_getNextCommand] and the macros live in headers that are not among
    the sources.  A method of [_parameters], [_ro] or [_rw] acts on that
    object alone, so it is a function on that record; the queries are
    functions to [bool] or to the integer they return. *)
Class RampHeader : Type := {
  MOVE_OK : Z;
  RAMP_STATE_ACCELERATING_FLAG : Z;
  RAMP_STATE_DECELERATING_FLAG : Z;
  RAMP_DIRECTION_MASK : Z;
  RAMP_DIRECTION_COUNT_UP : Z;
  RAMP_DIRECTION_COUNT_DOWN : Z;
  parameters_setAcceleration : Z -> ramp_parameters_s -> ramp_parameters_s;
  parameters_setTargetPosition : Z -> ramp_parameters_s -> ramp_parameters_s;
  parameters_applyParameters : ramp_parameters_s -> ramp_parameters_s;
  parameters_checkValidConfig : ramp_parameters_s -> Z;
  config_update : ramp_config_s -> ramp_config_s;
  ro_clearImmediateStop : ramp_ro_s -> ramp_ro_s;
  ro_isImmediateStopInitiated : ramp_ro_s -> bool;
  ro_isImmediateStopIncomplete : ramp_ro_s -> bool;
  rw_startRampIfNotRunning : ramp_rw_s -> ramp_rw_s;
  rw_stopRamp : ramp_rw_s -> ramp_rw_s;
  rw_rampState : ramp_rw_s -> Z;
  isRampGeneratorActive : RampGenerator -> bool;
  _getNextCommand :
    ramp_ro_s -> ramp_rw_s -> queue_end_s -> NextCommand ->
    ramp_ro_s * ramp_rw_s * NextCommand
}.

(** *** The methods, as state transformers on the generator *)

Definition M (A : Type) : Type := RampGenerator -> A * RampGenerator.
Definition ret {A : Type} (a : A) : M A := fun g => (a, g).
Definition bind {A B : Type} (m : M A) (k : A -> M B) : M B :=
  fun g => let '(a, g') := m g in k a g'.
Definition get : M RampGenerator := fun g => (g, g).
Definition put (g : RampGenerator) : M unit := fun _ => (tt, g).

Declare Scope ramp_scope.
Delimit Scope ramp_scope with ramp.
Notation "x <- m ;; k" := (bind m (fun x => k))
  (at level 61, m at next level, right associativity) : ramp_scope.
Notation "m ;; k" := (bind m (fun _ => k))
  (at level 61, right associativity) : ramp_scope.
Local Open Scope ramp_scope.

(** [acceleration = v;] *)
Definition assign_acceleration (v : Z) : M unit :=
  fun g => (tt, mk_generator v (_parameters g) (_ro g) (_rw g)).
(** A statement that acts on [_parameters], on [_ro] or on [_rw]. *)
Definition on_parameters (f : ramp_parameters_s -> ramp_parameters_s) : M unit :=
  fun g => (tt, mk_generator (acceleration g) (f (_parameters g)) (_ro g) (_rw g)).
Definition on_ro (f : ramp_ro_s -> ramp_ro_s) : M unit :=
  fun g => (tt, mk_generator (acceleration g) (_parameters g) (f (_ro g)) (_rw g)).
Definition on_rw (f : ramp_rw_s -> ramp_rw_s) : M unit :=
  fun g => (tt, mk_generator (acceleration g) (_parameters g) (_ro g) (f (_rw g))).

(** [void inject_fill_interrupt(int mark) {}], as tests/test_01.cpp
    defines it. *)
Definition inject_fill_interrupt (mark : Z) : M unit := ret tt.

(** [fasDisableInterrupts()] and [fasEnableInterrupts()] bracket a
    statement; sequentially they do nothing. *)
Definition fasDisableInterrupts : M unit := ret tt.
Definition fasEnableInterrupts : M unit := ret tt.

Section Methods.
Context {H : RampHeader}.

Definition setAcceleration (accel : Z) : M Z :=
  if accel <=? 0 then ret (i8 (-1))
  else
    assign_acceleration (u32 accel);;
    on_parameters (parameters_setAcceleration accel);;
    ret (i8 0).


Definition startRun (countUp : bool) : M Z :=
  res <- (fun g => (u8 (parameters_checkValidConfig (_parameters g)), g));;
  if negb (res =? MOVE_OK) then ret (i8 res)
  else
    on_parameters (parameters_setTargetPosition 0);;
    on_ro (set_force_stop false);;
    on_parameters (set_keep_running true);;
    on_parameters (set_keep_running_count_up countUp);;
    on_parameters parameters_applyParameters;;
    fasDisableInterrupts;;
    on_rw rw_startRampIfNotRunning;;
    fasEnableInterrupts;;
    ret (i8 MOVE_OK).

Definition _startMove (target_pos : Z) (position_changed : bool) : M Z :=
  res <- (fun g => (u8 (parameters_checkValidConfig (_parameters g)), g));;
  if negb (res =? MOVE_OK) then ret (i8 res)
  else
    on_parameters (parameters_setTargetPosition target_pos);;
    on_ro (set_force_stop false);;
    on_parameters (set_keep_running false);;
    on_parameters (set_keep_running_count_up true);;
    on_parameters parameters_applyParameters;;
    (if position_changed then on_rw rw_startRampIfNotRunning else ret tt);;
    ret (i8 MOVE_OK).

(** The position a new target is compared with: the applied target while
    a positioning ramp is running, the end of the queue otherwise. *)
Definition curr_pos_of (queue_end : queue_end_s) (g : RampGenerator) : Z :=
  if isRampGeneratorActive g
     && negb (keep_running (parameters (config (_ro g))))
  then target_pos (parameters (config (_ro g)))
  else pos queue_end.

Definition moveTo (position : Z) (queue_end : queue_end_s) : M Z :=
  curr_pos <- (fun g => (curr_pos_of queue_end g, g));;
  inject_fill_interrupt 1;;
  res <- _startMove position (negb (curr_pos =? position));;
  inject_fill_interrupt 2;;
  ret (i8 res).

Definition move (move : Z) (queue_end : queue_end_s) : M Z :=
  curr_pos <- (fun g => (curr_pos_of queue_end g, g));;
  let new_pos := i32 (curr_pos + move) in
  _startMove new_pos (negb (curr_pos =? new_pos)).

Definition advanceTargetPosition (delta : Z) (queue : queue_end_s) : M unit :=
  g <- get;;
  if isRampGeneratorActive g
     && negb (keep_running (parameters (config (_ro g))))
  then
    let new_pos := i32 (target_pos (parameters (config (_ro g))) + delta) in
    _startMove new_pos true;;
    ret tt
  else ret tt.


(** The first statement of [getNextCommand]: the apply handshake. *)
Definition copy_parameters : M unit :=
  fun g => on_ro (fun r => set_config (set_parameters (_parameters g) (config r)) r) g.

Definition apply_handshake : M unit :=
  g <- get;;
  if apply (_parameters g) then
    copy_parameters;;
    on_parameters (set_apply false);;
    on_parameters (set_any_change false);;
    on_parameters (set_recalc_ramp_steps false);;
    on_ro (fun r => set_config (config_update (config r)) r)
  else ret tt.

(** What follows the handshake: the command computation. *)
Definition command_computation
    (queue_end : queue_end_s) (command : NextCommand) : M NextCommand :=
  fasDisableInterrupts;;
  let qe := queue_end in
  fasEnableInterrupts;;
  on_ro ro_clearImmediateStop;;
  g <- get;;
  if ro_isImmediateStopInitiated (_ro g) then
    let command := mk_next (set_ticks 0 (RampGenerator.command command)) (rw command) in
    on_ro ro_clearImmediateStop;;
    let command := mk_next (RampGenerator.command command) (rw_stopRamp (rw command)) in
    ret command
  else
    (if ro_isImmediateStopIncomplete (_ro g) then
       on_rw rw_stopRamp;;
       on_ro ro_clearImmediateStop
     else ret tt);;
    g <- get;;
    let '(ro', rw', command') := _getNextCommand (_ro g) (_rw g) qe command in
    put (mk_generator (acceleration g) (_parameters g) ro' rw');;
    ret command'.

Definition getNextCommand
    (queue_end : queue_end_s) (command : NextCommand) : M NextCommand :=
  apply_handshake;;
  command_computation queue_end command.


(** [acceleration] is a [uint32_t] member and the result an [int32_t]. *)
Definition getCurrentAcceleration (g : RampGenerator) : Z :=
  let s :=
    Z.land (rw_rampState (_rw g))
      (Z.lor (Z.lor RAMP_STATE_ACCELERATING_FLAG RAMP_STATE_DECELERATING_FLAG)
         RAMP_DIRECTION_MASK) in
  if (s =? Z.lor RAMP_STATE_ACCELERATING_FLAG RAMP_DIRECTION_COUNT_UP)
     || (s =? Z.lor RAMP_STATE_DECELERATING_FLAG RAMP_DIRECTION_COUNT_DOWN)
  then i32 (acceleration g)
  else if (s =? Z.lor RAMP_STATE_DECELERATING_FLAG RAMP_DIRECTION_COUNT_UP)
          || (s =? Z.lor RAMP_STATE_ACCELERATING_FLAG RAMP_DIRECTION_COUNT_DOWN)
  then i32 (u32 (- acceleration g))
  else 0.

End Methods.

End RampGenerator.

(** ** Vocabulary of the statements *)

Module Precision.
Import Int PoorManFloat.

(** The bit pattern [0x8000], read as the [int16_t] it is stored in. *)
Definition sentinel : Z := i16 0x8000.

(** An integer [x >= 1] with leading bit [e = Z.log2 x] is
    [1.mmmmmmmm * 2^e]; the last place of the eight mantissa bits weighs
    [2^(e-8)].  [within_ulps k x r]: [r] is at most [k] such units away
    from [x] (both sides scaled by 256 to stay in the integers). *)
Definition within_ulps (k x r : Z) : Prop :=
  256 * Z.abs (r - x) <= k * 2 ^ Z.log2 x.

(** Relative error at most [1/256], about 0.39 percent. *)
Definition within_rel (x r : Z) : Prop := 256 * Z.abs (r - x) <= x.

Definition roundtrip_u16 (x : Z) : Z := pmfl_to_u16 (pmfl_from_u16 x).
Definition roundtrip_u32 (x : Z) : Z := pmfl_to_u32 (pmfl_from_u32 x).

(** [f] holds on [lo], [lo+1], ..., [lo+n-1]. *)
Fixpoint all_from (f : Z -> bool) (n : nat) (lo : Z) : bool :=
  match n with
  | O => true
  | S n' => f lo && all_from f n' (lo + 1)
  end.

(** The statements of [pmfl_from(uint16_t)] that follow the cascade of
    tests: [x] is the argument normalised to ten bits and [exponent] the
    position of its leading bit. *)
Definition from_u16_tail (x exponent : Z) : Z :=
  let index := u8 (Z.shiftr x 1) in
  let offset := pgm_read_byte_near log2_minus_x_plus_one_shifted_by_1 index in
  let x := u16 (x + offset) in
  let x := u16 (x - 0x200) in
  let x := u16 (x + u16 (Z.shiftl exponent 9)) in
  i16 x.

(** Decision procedures, run over finite ranges.  The first four look at one
    argument. *)
Definition from_u8_ok (x : Z) : bool :=
  if x =? 0 then pmfl_from_u8 x =? sentinel
  else (0 <=? pmfl_from_u8 x) && (pmfl_from_u8 x <? 0x1000).

Definition from_u16_ok (x : Z) : bool :=
  if x =? 0 then pmfl_from_u16 x =? sentinel
  else (0 <=? pmfl_from_u16 x) && (pmfl_from_u16 x <=? 0x2000).

Definition roundtrip_u16_ok (x : Z) : bool :=
  256 * Z.abs (roundtrip_u16 x - x) <=? 2 ^ Z.log2 x.

Definition roundtrip_u32_low_ok (x : Z) : bool :=
  256 * Z.abs (pmfl_to_u32 (pmfl_from_u16 x) - x) <=? 2 ^ Z.log2 x.

(** The others look at a class: all [x] with [x / 2^s = c] convert to one
    value [r], and the error is largest at the ends [c * 2^s] and
    [c * 2^s + 2^s - 1] of the class. *)
Definition class_rel (r s c : Z) : bool :=
  let lo := c * 2 ^ s in
  let hi := lo + 2 ^ s - 1 in
  (256 * (r - lo) <=? lo) && (256 * (hi - r) <=? hi).

Definition class_within (n r s c : Z) : bool :=
  let lo := c * 2 ^ s in
  let hi := lo + 2 ^ s - 1 in
  let e := 2 ^ Z.log2 c * 2 ^ s in
  (256 * (r - lo) <=? n * e) && (256 * (hi - r) <=? n * e).

(** A 16-bit argument of at least 512 with leading bit [k] and leading ten
    bits [m]: on its own, and as [x >> 8] and [x >> 16] of a 32-bit one. *)
Definition prefix_ok (k m : Z) : bool :=
  let v := from_u16_tail m k in
  let s := k - 9 in
  (0 <=? v) && (v <=? 0x2000)
  && class_within 1 (pmfl_to_u16 v) s m
  && class_within 1 (pmfl_to_u32 v) s m
  && class_within 1 (pmfl_to_u32 (i16 (v + 0x1000))) (s + 8) m
  && class_within 1 (pmfl_to_u32 (i16 (v + 0x2000))) (s + 16) m.

(** A 32-bit argument whose [x >> 8] or [x >> 16] is [w], below 512. *)
Definition narrow_ok (w : Z) : bool :=
  let r8 := pmfl_to_u32 (i16 (pmfl_from_u16 w + 0x1000)) in
  let r16 := pmfl_to_u32 (i16 (pmfl_from_u16 w + 0x2000)) in
  class_rel r8 8 w && class_within 2 r8 8 w
  && class_rel r16 16 w && class_within 2 r16 16 w.

End Precision.

(** ** A header to run the ramp generator with *)

Module SpecHeader.
Import Int RampGenerator.

(** Modelled from the spec: the phase and direction bit-field of the write
    side, one bit per flag; the value 0 is the idle state. *)
Definition RAMP_STATE_IDLE : Z := 0.
Definition RAMP_STATE_ACCELERATE : Z := 2.
Definition RAMP_STATE_DECELERATE : Z := 4.
Definition RAMP_DIRECTION_UP : Z := 32.
Definition RAMP_DIRECTION_DOWN : Z := 64.

(** Modelled from the spec: the status code of a move that is refused
    because no acceleration is configured. *)
Definition MOVE_ERR_NOT_READY : Z := -2.

(** Modelled from the spec: [_parameters.setAcceleration] is not among the
    sources; it "stores it and marks the parameter set dirty". *)
Definition spec_setAcceleration (accel : Z) (p : ramp_parameters_s) : ramp_parameters_s :=
  mk_parameters (target_pos p) (u32 accel) (min_travel_ticks p)
    (keep_running p) (keep_running_count_up p) true (recalc_ramp_steps p)
    (apply p).

(** Modelled from the spec: [_parameters.setTargetPosition] is not among
    the sources; it mutates its field and marks the set dirty likewise. *)
Definition spec_setTargetPosition (position : Z) (p : ramp_parameters_s) : ramp_parameters_s :=
  mk_parameters position (p_acceleration p) (min_travel_ticks p)
    (keep_running p) (keep_running_count_up p) true (recalc_ramp_steps p)
    (apply p).

(** Modelled from the spec: [_parameters.applyParameters] is not among the
    sources; it "sets the apply flag". *)
Definition spec_applyParameters (p : ramp_parameters_s) : ramp_parameters_s :=
  set_apply true p.

(** Modelled from the spec: [_parameters.checkValidConfig] is not among
    the sources; "acceleration must be configured before motion starts". *)
Definition spec_checkValidConfig (p : ramp_parameters_s) : Z :=
  if p_acceleration p =? 0 then MOVE_ERR_NOT_READY else 0.

(** Modelled from the spec: [_ro.clearImmediateStop] and the two queries
    are not among the sources; they clear and read the two immediate-stop
    conditions. *)
Definition spec_clearImmediateStop (r : ramp_ro_s) : ramp_ro_s :=
  mk_ro (config r) (force_stop r) false false.

(** Modelled from the spec: [_rw.startRampIfNotRunning] is not among the
    sources; it "begins Accelerating ... if the queue is not already
    running; if already running, the in-flight state continues
    uninterrupted". *)
Definition spec_startRampIfNotRunning (w : ramp_rw_s) : ramp_rw_s :=
  if ramp_state w =? RAMP_STATE_IDLE
  then mk_rw RAMP_STATE_ACCELERATE 0 (pause_ticks_left w) (curr_ticks w)
  else w.

(** Modelled from the spec: [_rw.stopRamp] is not among the sources; the
    ramp returns to its idle state. *)
Definition spec_stopRamp (w : ramp_rw_s) : ramp_rw_s :=
  mk_rw RAMP_STATE_IDLE (performed_ramp_up_steps w) (pause_ticks_left w)
    (curr_ticks w).

(** Modelled from the spec: the free function [_getNextCommand] is not
    among the sources and the spec leaves its decisions open; this one
    answers "no further command is available now" (zero ticks) and hands
    the write side back unchanged. *)
Definition spec_getNextCommand (r : ramp_ro_s) (w : ramp_rw_s) (qe : queue_end_s)
    (c : NextCommand) : ramp_ro_s * ramp_rw_s * NextCommand :=
  (r, w, mk_next (set_ticks 0 (command c)) w).

#[export] Instance header : RampHeader := {|
  MOVE_OK := 0;
  RAMP_STATE_ACCELERATING_FLAG := RAMP_STATE_ACCELERATE;
  RAMP_STATE_DECELERATING_FLAG := RAMP_STATE_DECELERATE;
  RAMP_DIRECTION_MASK := RAMP_DIRECTION_UP + RAMP_DIRECTION_DOWN;
  RAMP_DIRECTION_COUNT_UP := RAMP_DIRECTION_UP;
  RAMP_DIRECTION_COUNT_DOWN := RAMP_DIRECTION_DOWN;
  parameters_setAcceleration := spec_setAcceleration;
  parameters_setTargetPosition := spec_setTargetPosition;
  parameters_applyParameters := spec_applyParameters;
  parameters_checkValidConfig := spec_checkValidConfig;
  config_update := fun c => c;
  ro_clearImmediateStop := spec_clearImmediateStop;
  ro_isImmediateStopInitiated := force_immediate_stop;
  ro_isImmediateStopIncomplete := incomplete_immediate_stop;
  rw_startRampIfNotRunning := spec_startRampIfNotRunning;
  rw_stopRamp := spec_stopRamp;
  rw_rampState := ramp_state;
  isRampGeneratorActive := fun g => negb (ramp_state (_rw g) =? RAMP_STATE_IDLE);
  _getNextCommand := spec_getNextCommand
|}.

(** A generator in the middle of a positioning ramp: accelerating upwards
    towards position 1000, 17 ramp-up steps done. *)
Definition running_parameters : ramp_parameters_s :=
  mk_parameters 1000 1000 4000 false true false false false.
Definition running : RampGenerator :=
  mk_generator 1000 running_parameters
    (mk_ro (mk_config running_parameters 0) false false false)
    (mk_rw (RAMP_STATE_ACCELERATE + RAMP_DIRECTION_UP) 17 0 5000).

(** The same generator after the application changed its target and
    published the change. *)
Definition pending : RampGenerator :=
  mk_generator 1000
    (mk_parameters 2000 1000 4000 false true true false true)
    (_ro running) (_rw running).

(** The generator at rest. *)
Definition idle : RampGenerator :=
  mk_generator 1000 running_parameters
    (mk_ro (mk_config running_parameters 0) false false false)
    (mk_rw RAMP_STATE_IDLE 0 0 0).

End SpecHeader.

(** ** Further decision procedures *)

Module Runs.
Import Int PoorManFloat Precision.

(** [f] does not decrease from [z] to [z + 1]. *)
Definition step_ok (f : Z -> Z) (z : Z) : bool := f z <=? f (z + 1).

(** A logarithm between [512 * e] and [512 * (e + 1)]. *)
Definition bracket_ok (e v : Z) : bool :=
  (512 * e <=? v) && (v <=? 512 * (e + 1)).

(** One row of ten-bit prefixes: the logarithm of the prefix [m] at leading
    bit [k] is bracketed by [k] and does not decrease towards [m + 1]. *)
Definition row_ok (k m : Z) : bool :=
  bracket_ok k (from_u16_tail m k)
  && ((m =? 1023) || (from_u16_tail m k <=? from_u16_tail (m + 1) k)).

(** A small 16-bit argument: bracket and step. *)
Definition small_ok (x : Z) : bool :=
  bracket_ok (Z.log2 x) (pmfl_from_u16 x) && step_ok pmfl_from_u16 x.

(** Powers of two convert exactly, both ways. *)
Definition power_ok (k : Z) : bool :=
  (pmfl_from_u32 (2 ^ k) =? 512 * k) && (pmfl_to_u32 (512 * k) =? 2 ^ k)
  && ((16 <=? k) || (pmfl_to_u16 (512 * k) =? 2 ^ k)).

(** One more unit of exponent doubles the integer. *)
Definition doubling_ok (v : Z) : bool :=
  pmfl_to_u32 (v + 512) =? 2 * pmfl_to_u32 v.

(** Decoding and encoding again moves a logarithm by at most two units. *)
Definition reencode_ok (v : Z) : bool :=
  Z.abs (pmfl_from_u32 (pmfl_to_u32 v) - v) <=? 2.

(** An 8-bit argument survives the round trip. *)
Definition exact_u8_ok (x : Z) : bool :=
  (pmfl_to_u16 (pmfl_from_u8 x) =? x) && (pmfl_to_u32 (pmfl_from_u8 x) =? x).

End Runs.

(** ** Vocabulary for the ramp generator *)

Module RampTerms.
Import Int RampGenerator.

Section AnyHeader.
Context {H : RampHeader}.

(** The configuration is valid when the result of [checkValidConfig],
    stored in a [uint8_t], compares equal to [MOVE_OK]. *)
Definition valid_config (g : RampGenerator) : bool :=
  u8 (parameters_checkValidConfig (_parameters g)) =? MOVE_OK.

(** The status a refused move returns. *)
Definition config_error (g : RampGenerator) : Z :=
  i8 (u8 (parameters_checkValidConfig (_parameters g))).

(** The parameter record a move to [target] publishes. *)
Definition move_parameters (target : Z) (g : RampGenerator) : ramp_parameters_s :=
  parameters_applyParameters
    (set_keep_running_count_up true
       (set_keep_running false
          (parameters_setTargetPosition target (_parameters g)))).

End AnyHeader.

End RampTerms.

(** ** Facts about the fixed-width conversions *)

Module IntFacts.
Import Int.

(** The low [w] bits are the residue modulo [2^w]. *)
Lemma u8_mod (z : Z) : u8 z = z mod 256.
Proof.
  unfold u8. change 0xff with (Z.ones 8).
  now rewrite Z.land_ones by lia.
Qed.

Lemma u16_mod (z : Z) : u16 z = z mod 65536.
Proof.
  unfold u16. change 0xffff with (Z.ones 16).
  now rewrite Z.land_ones by lia.
Qed.

Lemma u32_mod (z : Z) : u32 z = z mod 4294967296.
Proof.
  unfold u32. change 0xffffffff with (Z.ones 32).
  now rewrite Z.land_ones by lia.
Qed.

Lemma i16_mod (z : Z) : i16 z = (z + 32768) mod 65536 - 32768.
Proof.
  unfold i16. change 0xffff with (Z.ones 16).
  now rewrite Z.land_ones by lia.
Qed.

Lemma i32_mod (z : Z) :
  i32 z = (z + 2147483648) mod 4294967296 - 2147483648.
Proof.
  unfold i32. change 0xffffffff with (Z.ones 32).
  now rewrite Z.land_ones by lia.
Qed.

Lemma i16_id (z : Z) : is_i16 z -> i16 z = z.
Proof.
  unfold is_i16; intros Hz. rewrite i16_mod.
  rewrite Z.mod_small by lia. lia.
Qed.

Lemma i16_range (z : Z) : is_i16 (i16 z).
Proof.
  unfold is_i16. rewrite i16_mod.
  pose proof (Z.mod_pos_bound (z + 32768) 65536 ltac:(lia)). lia.
Qed.

Lemma i32_id (z : Z) : is_i32 z -> i32 z = z.
Proof.
  unfold is_i32; intros Hz. rewrite i32_mod.
  rewrite Z.mod_small by lia. lia.
Qed.

Lemma u16_id (z : Z) : is_u16 z -> u16 z = z.
Proof. unfold is_u16; intros Hz. rewrite u16_mod. now apply Z.mod_small. Qed.

Lemma u32_id (z : Z) : is_u32 z -> u32 z = z.
Proof. unfold is_u32; intros Hz. rewrite u32_mod. now apply Z.mod_small. Qed.

(** Two conversions in a row see only the sum modulo [2^16]. *)
Lemma i16_add_l (a b : Z) : i16 (i16 a + b) = i16 (a + b).
Proof.
  rewrite !i16_mod.
  replace ((a + 32768) mod 65536 - 32768 + b + 32768)
    with ((a + 32768) mod 65536 + b) by lia.
  rewrite Zplus_mod_idemp_l. f_equal. f_equal. lia.
Qed.

Lemma i16_opp (a : Z) : i16 (- i16 a) = i16 (- a).
Proof.
  rewrite !i16_mod.
  replace (- ((a + 32768) mod 65536 - 32768) + 32768)
    with (65536 - (a + 32768) mod 65536) by lia.
  rewrite Zminus_mod_idemp_r. f_equal. f_equal. lia.
Qed.

(** A mask that is a shifted field selects the shifted bits of [x]. *)
Lemma land_shifted_mask (x m k : Z) :
  0 <= k -> Z.land x (Z.shiftl m k) = Z.shiftl (Z.land (Z.shiftr x k) m) k.
Proof.
  intros Hk. apply Z.bits_inj'; intros n Hn.
  rewrite Z.land_spec.
  destruct (Z.lt_ge_cases n k) as [Hlt | Hge].
  - rewrite !Z.shiftl_spec_low by assumption.
    now rewrite andb_false_r.
  - rewrite !Z.shiftl_spec by assumption.
    rewrite Z.land_spec, Z.shiftr_spec by lia.
    now replace (n - k + k) with n by lia.
Qed.

(** The upper [j] bits of a [(k+j)]-bit number vanish exactly below [2^k]. *)
Lemma high_field_zero (x k j : Z) :
  0 <= k -> 0 <= j -> 0 <= x < 2 ^ (k + j) ->
  (Z.land x (Z.shiftl (Z.ones j) k) =? 0) = (x <? 2 ^ k).
Proof.
  intros Hk Hj Hx.
  rewrite land_shifted_mask by assumption.
  rewrite Z.land_ones, Z.shiftr_div_pow2, Z.shiftl_mul_pow2 by assumption.
  assert (Hpk : 0 < 2 ^ k) by (apply Z.pow_pos_nonneg; lia).
  assert (Hpj : 0 < 2 ^ j) by (apply Z.pow_pos_nonneg; lia).
  assert (Hq : 0 <= x / 2 ^ k < 2 ^ j).
  { split; [apply Z.div_pos; lia |].
    apply Z.div_lt_upper_bound; [lia |].
    rewrite <- Z.pow_add_r by lia. lia. }
  rewrite (Z.mod_small _ _ Hq).
  destruct (Z.ltb_spec x (2 ^ k)) as [Hlt | Hge].
  - rewrite Z.div_small by lia. reflexivity.
  - apply Z.eqb_neq.
    assert (1 <= x / 2 ^ k) by (apply Z.div_le_lower_bound; lia).
    nia.
Qed.

End IntFacts.

(** ** Properties of the logarithmic format *)

Module PoorManFloatFacts.
Import Int PoorManFloat Precision IntFacts.

Lemma all_from_spec (f : Z -> bool) (n : nat) :
  forall lo, all_from f n lo = true ->
  forall z, lo <= z < lo + Z.of_nat n -> f z = true.
Proof.
  induction n as [| n IH]; intros lo Hall z Hz.
  - simpl in Hz. lia.
  - simpl in Hall. apply andb_prop in Hall as [Hlo Hrest].
    destruct (Z.eq_dec z lo) as [-> | Hne]; [assumption |].
    apply (IH (lo + 1) Hrest). lia.
Qed.

(** *** The three entry points of [pmfl_from] on a 32-bit argument *)

Lemma pmfl_from_u32_low (x : Z) :
  0 <= x < 65536 -> pmfl_from_u32 x = pmfl_from_u16 x.
Proof.
  intros Hx. unfold pmfl_from_u32.
  change 0xffff0000 with (Z.shiftl (Z.ones 16) 16).
  rewrite (high_field_zero x 16 16) by (simpl; lia).
  destruct (Z.ltb_spec x (2 ^ 16)) as [_ | Hge]; [| simpl in Hge; lia].
  now rewrite u16_id.
Qed.

Lemma pmfl_from_u32_mid (x : Z) :
  65536 <= x < 16777216 ->
  pmfl_from_u32 x = i16 (pmfl_from_u16 (x / 256) + 0x1000).
Proof.
  intros Hx. unfold pmfl_from_u32.
  change 0xffff0000 with (Z.shiftl (Z.ones 16) 16).
  change 0xff000000 with (Z.shiftl (Z.ones 8) 24).
  rewrite (high_field_zero x 16 16), (high_field_zero x 24 8) by (simpl; lia).
  destruct (Z.ltb_spec x (2 ^ 16)) as [Hlt | _]; [simpl in Hlt; lia |].
  destruct (Z.ltb_spec x (2 ^ 24)) as [_ | Hge]; [| simpl in Hge; lia].
  rewrite Z.shiftr_div_pow2 by lia. change (2 ^ 8) with 256.
  rewrite u16_id; [reflexivity |].
  unfold is_u16. split; [apply Z.div_pos; lia |].
  apply Z.div_lt_upper_bound; lia.
Qed.

Lemma pmfl_from_u32_high (x : Z) :
  16777216 <= x < 4294967296 ->
  pmfl_from_u32 x = i16 (pmfl_from_u16 (x / 65536) + 0x2000).
Proof.
  intros Hx. unfold pmfl_from_u32.
  change 0xffff0000 with (Z.shiftl (Z.ones 16) 16).
  change 0xff000000 with (Z.shiftl (Z.ones 8) 24).
  rewrite (high_field_zero x 16 16), (high_field_zero x 24 8) by (simpl; lia).
  destruct (Z.ltb_spec x (2 ^ 16)) as [Hlt | _]; [simpl in Hlt; lia |].
  destruct (Z.ltb_spec x (2 ^ 24)) as [Hlt | _]; [simpl in Hlt; lia |].
  rewrite Z.shiftr_div_pow2 by lia. change (2 ^ 16) with 65536.
  rewrite u16_id; [reflexivity |].
  unfold is_u16. split; [apply Z.div_pos; lia |].
  apply Z.div_lt_upper_bound; lia.
Qed.

(** *** [pmfl_from(uint16_t)] keeps the ten leading bits *)

(** Settles the tests [y <? b] of the goal from the bounds on [y]. *)
Ltac decide_tests y :=
  repeat match goal with
         | |- context [y <? ?b] =>
             let Hc := fresh "Hc" in
             destruct (Z.ltb_spec y b) as [Hc | Hc]; [try lia | try lia];
             clear Hc
         end;
  cbn [negb].

Lemma pmfl_from_u16_msb (y k : Z) :
  9 <= k <= 15 -> 2 ^ k <= y < 2 ^ (k + 1) ->
  pmfl_from_u16 y = from_u16_tail (Z.shiftr y (k - 9)) k.
Proof.
  intros Hk Hy.
  assert (Hcases : k = 9 \/ k = 10 \/ k = 11 \/ k = 12 \/ k = 13
                   \/ k = 14 \/ k = 15) by lia.
  unfold pmfl_from_u16.
  change 0xff00 with (Z.shiftl (Z.ones 8) 8).
  change 0xf000 with (Z.shiftl (Z.ones 4) 12).
  change 0xc000 with (Z.shiftl (Z.ones 2) 14).
  change 0x8000 with (Z.shiftl (Z.ones 1) 15).
  change 0x2000 with (Z.shiftl (Z.ones 1) 13).
  change 0x0c00 with (Z.shiftl (Z.ones 2) 10).
  change 0x0800 with (Z.shiftl (Z.ones 1) 11).
  change 0x0200 with (Z.shiftl (Z.ones 1) 9).
  destruct Hcases as [-> | [-> | [-> | [-> | [-> | [-> | ->]]]]]].
  - rewrite (high_field_zero y 8 8), (high_field_zero y 12 4),
      (high_field_zero y 10 2), (high_field_zero y 9 1) by lia.
    decide_tests y.
    change (9 - 9) with 0. rewrite Z.shiftr_0_r. reflexivity.
  - rewrite (high_field_zero y 8 8), (high_field_zero y 12 4),
      (high_field_zero y 10 2), (high_field_zero y 11 1) by lia.
    decide_tests y.
    reflexivity.
  - rewrite (high_field_zero y 8 8), (high_field_zero y 12 4),
      (high_field_zero y 10 2), (high_field_zero y 11 1) by lia.
    decide_tests y.
    reflexivity.
  - rewrite (high_field_zero y 8 8), (high_field_zero y 12 4),
      (high_field_zero y 14 2), (high_field_zero y 13 1) by lia.
    decide_tests y.
    reflexivity.
  - rewrite (high_field_zero y 8 8), (high_field_zero y 12 4),
      (high_field_zero y 14 2), (high_field_zero y 13 1) by lia.
    decide_tests y.
    reflexivity.
  - rewrite (high_field_zero y 8 8), (high_field_zero y 12 4),
      (high_field_zero y 14 2), (high_field_zero y 15 1) by lia.
    decide_tests y.
    reflexivity.
  - rewrite (high_field_zero y 8 8), (high_field_zero y 12 4),
      (high_field_zero y 14 2), (high_field_zero y 15 1) by lia.
    decide_tests y.
    reflexivity.
Qed.

(** Every 16-bit argument from 512 on has a leading bit [k] and ten
    leading bits [m] that alone decide the result. *)
Lemma prefix_of (w : Z) :
  512 <= w < 65536 ->
  exists k m,
    9 <= k <= 15 /\ 512 <= m < 1024 /\ w / 2 ^ (k - 9) = m
    /\ pmfl_from_u16 w = from_u16_tail m k.
Proof.
  intros Hw.
  pose proof (Z.log2_spec w ltac:(lia)) as [Hlo Hhi].
  assert (H9 : 9 <= Z.log2 w) by (apply Z.log2_le_pow2; lia).
  assert (H16 : Z.log2 w < 16) by (apply Z.log2_lt_pow2; lia).
  exists (Z.log2 w), (w / 2 ^ (Z.log2 w - 9)).
  set (s := Z.log2 w - 9) in *.
  assert (HP : 0 < 2 ^ s) by (apply Z.pow_pos_nonneg; lia).
  assert (Hk : 2 ^ Z.log2 w = 2 ^ s * 512).
  { replace (Z.log2 w) with (s + 9) by (unfold s; lia).
    now rewrite Z.pow_add_r by lia. }
  assert (Hk1 : 2 ^ Z.succ (Z.log2 w) = 2 ^ s * 1024).
  { rewrite Z.pow_succ_r, Hk by lia. lia. }
  rewrite Hk in Hlo. rewrite Hk1 in Hhi.
  split; [lia |]. split.
  - split; [apply Z.div_le_lower_bound; lia
           | apply Z.div_lt_upper_bound; lia].
  - split; [reflexivity |].
    rewrite <- Z.shiftr_div_pow2 by lia.
    apply pmfl_from_u16_msb; [lia |].
    rewrite Hk. replace (Z.log2 w + 1) with (Z.succ (Z.log2 w)) by lia.
    rewrite Hk1. lia.
Qed.

(** *** Exhaustive runs *)

Lemma from_u8_all : all_from from_u8_ok 256 0 = true.
Proof. vm_compute. reflexivity. Qed.

Lemma from_u16_small_all : all_from from_u16_ok 512 0 = true.
Proof. vm_compute. reflexivity. Qed.

Lemma roundtrip_small_all :
  all_from (fun x => roundtrip_u16_ok x && roundtrip_u32_low_ok x) 511 1
  = true.
Proof. vm_compute. reflexivity. Qed.

Lemma narrow_all : all_from narrow_ok 256 256 = true.
Proof. vm_compute. reflexivity. Qed.

Lemma prefix_all :
  all_from (fun k => all_from (prefix_ok k) 512 512) 7 9 = true.
Proof. vm_compute. reflexivity. Qed.

Lemma from_u8_ok_at (x : Z) : is_u8 x -> from_u8_ok x = true.
Proof.
  intros Hx. apply (all_from_spec _ _ _ from_u8_all). unfold is_u8 in Hx. lia.
Qed.

Lemma prefix_ok_at (k m : Z) :
  9 <= k <= 15 -> 512 <= m < 1024 -> prefix_ok k m = true.
Proof.
  intros Hk Hm.
  pose proof (all_from_spec _ _ _ prefix_all k ltac:(lia)) as Hrow.
  apply (all_from_spec _ _ _ Hrow). lia.
Qed.

Lemma pmfl_from_u16_bounds (w : Z) :
  1 <= w < 65536 -> 0 <= pmfl_from_u16 w <= 0x2000.
Proof.
  intros Hw. destruct (Z.lt_ge_cases w 512) as [Hsmall | Hbig].
  - pose proof (all_from_spec _ _ _ from_u16_small_all w ltac:(lia)) as Hok.
    unfold from_u16_ok in Hok.
    destruct (Z.eqb_spec w 0) as [-> | _]; [lia |].
    apply andb_prop in Hok as [H0 H1]. lia.
  - destruct (prefix_of w ltac:(lia)) as (k & m & Hk & Hm & _ & Hfrom).
    pose proof (prefix_ok_at k m Hk Hm) as Hok. unfold prefix_ok in Hok.
    rewrite Hfrom.
    do 4 (apply andb_prop in Hok; destruct Hok as [Hok _]).
    apply andb_prop in Hok as [H0 H1]. lia.
Qed.

Lemma from_u16_ok_at (x : Z) : is_u16 x -> from_u16_ok x = true.
Proof.
  intros Hx. unfold is_u16 in Hx.
  destruct (Z.lt_ge_cases x 512) as [Hsmall | Hbig].
  - apply (all_from_spec _ _ _ from_u16_small_all). lia.
  - unfold from_u16_ok. destruct (Z.eqb_spec x 0) as [-> | _]; [lia |].
    pose proof (pmfl_from_u16_bounds x ltac:(lia)).
    apply andb_true_intro. split; lia.
Qed.

(** *** Sentinel *)

(** C7. [pmfl_from] returns the bit pattern [0x8000] exactly when its
    argument is zero, at each of the three widths; for an argument of at
    least one the result is a non-negative logarithm, at most [0x4000],
    hence not the sentinel. *)
Theorem pmfl_from_sentinel_iff_zero :
  (forall x, is_u8 x ->
     (pmfl_from_u8 x = sentinel <-> x = 0)
     /\ (1 <= x -> 0 <= pmfl_from_u8 x < 0x1000))
  /\ (forall x, is_u16 x ->
     (pmfl_from_u16 x = sentinel <-> x = 0)
     /\ (1 <= x -> 0 <= pmfl_from_u16 x <= 0x2000))
  /\ (forall x, is_u32 x ->
     (pmfl_from_u32 x = sentinel <-> x = 0)
     /\ (1 <= x -> 0 <= pmfl_from_u32 x <= 0x4000)).
Proof.
  assert (Hs : sentinel = -32768) by reflexivity.
  assert (H16 : forall x, is_u16 x ->
     (pmfl_from_u16 x = sentinel <-> x = 0)
     /\ (1 <= x -> 0 <= pmfl_from_u16 x <= 0x2000)).
  { intros x Hx. pose proof (from_u16_ok_at x Hx) as Hok.
    unfold from_u16_ok in Hok.
    destruct (Z.eqb_spec x 0) as [-> | Hne].
    - apply Z.eqb_eq in Hok. split; [tauto | lia].
    - apply andb_prop in Hok as [H0 H1].
      apply Z.leb_le in H0. apply Z.leb_le in H1.
      split; [| intros _; lia].
      split; [intros Heq; rewrite Hs in Heq; lia | intros; contradiction]. }
  split; [| split; [exact H16 |]].
  - intros x Hx. pose proof (from_u8_ok_at x Hx) as Hok.
    unfold from_u8_ok in Hok.
    destruct (Z.eqb_spec x 0) as [-> | Hne].
    + apply Z.eqb_eq in Hok. split; [tauto | lia].
    + apply andb_prop in Hok as [H0 H1].
      apply Z.leb_le in H0. apply Z.ltb_lt in H1.
      split; [| intros _; lia].
      split; [intros Heq; rewrite Hs in Heq; lia | intros; contradiction].
  - intros x Hx. unfold is_u32 in Hx.
    destruct (Z.lt_ge_cases x 65536) as [Hlow | Hge].
    + rewrite pmfl_from_u32_low by lia.
      destruct (H16 x ltac:(unfold is_u16; lia)) as [Hiff Hpos].
      split; [exact Hiff | intros H1; specialize (Hpos H1); lia].
    + assert (Hne : x <> 0) by lia.
      destruct (Z.lt_ge_cases x 16777216) as [Hmid | Hhigh].
      * rewrite pmfl_from_u32_mid by lia.
        assert (Hw : 1 <= x / 256 < 65536).
        { split; [apply Z.div_le_lower_bound; lia
                 | apply Z.div_lt_upper_bound; lia]. }
        pose proof (pmfl_from_u16_bounds _ Hw) as Hb.
        rewrite i16_id by (unfold is_i16; lia).
        split; [| intros _; lia].
        split; [rewrite Hs; lia | intros; contradiction].
      * rewrite pmfl_from_u32_high by lia.
        assert (Hw : 1 <= x / 65536 < 65536).
        { split; [apply Z.div_le_lower_bound; lia
                 | apply Z.div_lt_upper_bound; lia]. }
        pose proof (pmfl_from_u16_bounds _ Hw) as Hb.
        rewrite i16_id by (unfold is_i16; lia).
        split; [| intros _; lia].
        split; [rewrite Hs; lia | intros; contradiction].
Qed.

Lemma pmfl_from_sentinel_iff_zero_witness :
  (pmfl_from_u8 0 = sentinel <-> 0 = 0)
  /\ 0 <= pmfl_from_u16 1000 <= 0x2000
  /\ 0 <= pmfl_from_u32 21000000 <= 0x4000.
Proof.
  destruct pmfl_from_sentinel_iff_zero as [H8 [H16 H32]].
  split; [apply (H8 0); unfold is_u8; lia |].
  split.
  - apply (H16 1000); [unfold is_u16 |]; lia.
  - apply (H32 21000000); [unfold is_u32 |]; lia.
Defined.

(** *** Saturation of the conversions back *)

(** C4. [pmfl_to_u16] returns 0 below zero and [0xffff] from [0x2000]
    on; [pmfl_to_u32] returns 0 below zero and [0xffffffff] from [0x4000]
    on.  The results are the ends of the result type, not wrapped values. *)
Theorem pmfl_to_saturates (x : Z) :
  is_i16 x ->
  (x < 0 -> pmfl_to_u16 x = 0 /\ pmfl_to_u32 x = 0)
  /\ (0x2000 <= x -> pmfl_to_u16 x = 0xffff)
  /\ (0x4000 <= x -> pmfl_to_u32 x = 0xffffffff).
Proof.
  intros _. unfold pmfl_to_u16, pmfl_to_u32.
  destruct (Z.ltb_spec x 0) as [Hneg | Hpos].
  - repeat split; intros; try reflexivity; lia.
  - split; [intros; lia |].
    split; intros Hx.
    + destruct (Z.geb_spec x 0x2000); [reflexivity | lia].
    + destruct (Z.geb_spec x 0x4000); [reflexivity | lia].
Qed.

Lemma pmfl_to_saturates_witness :
  (pmfl_to_u16 (-1) = 0 /\ pmfl_to_u32 (-1) = 0)
  /\ pmfl_to_u16 0x2000 = 0xffff
  /\ pmfl_to_u32 0x4000 = 0xffffffff.
Proof.
  split; [| split].
  - apply (pmfl_to_saturates (-1)); [unfold is_i16 |]; lia.
  - apply (pmfl_to_saturates 0x2000); [unfold is_i16 |]; lia.
  - apply (pmfl_to_saturates 0x4000); [unfold is_i16 |]; lia.
Defined.

(** *** Arithmetic in log space *)

(** At [x = -0x4000] the double [-0x8000] is still an [int16_t], yet
    [pmfl_square] answers [0x8001]: it does not return [x + x] there. *)
Lemma pmfl_square_not_double_at_min :
  is_i16 (-0x4000) /\ is_i16 (-0x4000 + -0x4000)
  /\ pmfl_square (-0x4000) <> -0x4000 + -0x4000.
Proof.
  unfold is_i16. repeat split; try lia.
  vm_compute. discriminate.
Qed.

(** C6, amended. [pmfl_square x] is [x + x] for [-0x4000 < x < 0x4000],
    where the double stays strictly inside [-0x7fff .. 0x7fff]; it is
    [0x7fff] for [x >= 0x4000] and [0x8001], that is [-0x7fff], for
    [x <= -0x4000]. *)
Theorem pmfl_square_saturating (x : Z) :
  is_i16 x ->
  (0x4000 <= x -> pmfl_square x = 0x7fff)
  /\ (x <= -0x4000 -> pmfl_square x = -0x7fff)
  /\ (-0x4000 < x < 0x4000 ->
      pmfl_square x = x + x /\ -0x7fff < x + x < 0x7fff).
Proof.
  intros Hx. unfold pmfl_square.
  destruct (Z.geb_spec x 0x4000) as [Hge | Hlt].
  - repeat split; intros; try reflexivity; lia.
  - destruct (Z.leb_spec x (-0x4000)) as [Hle | Hgt].
    + repeat split; intros; try reflexivity; lia.
    + split; [intros; lia |]. split; [intros; lia |].
      intros _. split; [| lia].
      apply i16_id. unfold is_i16. lia.
Qed.

Lemma pmfl_square_saturating_witness :
  pmfl_square 0x4000 = 0x7fff
  /\ pmfl_square (-0x4000) = -0x7fff
  /\ pmfl_square 812 = 1624.
Proof.
  split; [| split].
  - apply (pmfl_square_saturating 0x4000); [unfold is_i16 |]; lia.
  - apply (pmfl_square_saturating (-0x4000)); [unfold is_i16 |]; lia.
  - apply (pmfl_square_saturating 812); [unfold is_i16 |]; lia.
Defined.

(** C8. On 16-bit two's-complement values, [pmfl_multiply] is the sum,
    [pmfl_divide] the difference and [pmfl_reciprocal] the negation, each
    reduced to 16 bits (and exact whenever the integer result fits);
    dividing a product by its second factor gives back the first, and the
    reciprocal of the reciprocal is the value itself. *)
Theorem pmfl_log_space_identities (a b : Z) :
  is_i16 a -> is_i16 b ->
  pmfl_multiply a b = i16 (a + b)
  /\ pmfl_divide a b = i16 (a - b)
  /\ pmfl_reciprocal a = i16 (- a)
  /\ (is_i16 (a + b) -> pmfl_multiply a b = a + b)
  /\ (is_i16 (a - b) -> pmfl_divide a b = a - b)
  /\ (is_i16 (- a) -> pmfl_reciprocal a = - a)
  /\ pmfl_divide (pmfl_multiply a b) b = a
  /\ pmfl_reciprocal (pmfl_reciprocal a) = a.
Proof.
  intros Ha Hb. unfold pmfl_multiply, pmfl_divide, pmfl_reciprocal.
  repeat split; try (intros; now apply i16_id).
  - unfold Z.sub at 1. rewrite i16_add_l.
    replace (a + b + - b) with a by lia. now apply i16_id.
  - rewrite i16_opp, Z.opp_involutive. now apply i16_id.
Qed.

Lemma pmfl_log_space_identities_witness :
  pmfl_divide (pmfl_multiply 30000 30000) 30000 = 30000
  /\ pmfl_reciprocal (pmfl_reciprocal (-32768)) = -32768.
Proof.
  split.
  - apply (pmfl_log_space_identities 30000 30000); unfold is_i16; lia.
  - apply (pmfl_log_space_identities (-32768) 0); unfold is_i16; lia.
Defined.

(** *** Round trip through the logarithmic format *)

(** The leading bit bounds the number from below. *)
Lemma pow2_log2_le (x : Z) : 1 <= x -> 0 < 2 ^ Z.log2 x <= x.
Proof.
  intros Hx. pose proof (Z.log2_spec x ltac:(lia)) as [Hlo _].
  pose proof (Z.log2_nonneg x).
  split; [apply Z.pow_pos_nonneg; lia | exact Hlo].
Qed.

Lemma within_ulps_1_rel (x r : Z) :
  1 <= x -> within_ulps 1 x r -> within_rel x r /\ within_ulps 2 x r.
Proof.
  unfold within_ulps, within_rel. intros Hx H1.
  pose proof (pow2_log2_le x Hx). lia.
Qed.

(** The leading bit of [x] is [s] places above that of [x / 2^s]. *)
Lemma pow2_log2_class (s w x : Z) :
  0 <= s -> 1 <= w -> x / 2 ^ s = w ->
  w * 2 ^ s <= x <= w * 2 ^ s + 2 ^ s - 1
  /\ 2 ^ Z.log2 x = 2 ^ Z.log2 w * 2 ^ s.
Proof.
  intros Hs Hw Hdiv.
  assert (HP : 0 < 2 ^ s) by (apply Z.pow_pos_nonneg; lia).
  pose proof (Z.div_mod x (2 ^ s) ltac:(lia)) as Hdm.
  pose proof (Z.mod_pos_bound x (2 ^ s) HP) as Hm.
  rewrite Hdiv in Hdm.
  assert (Hrange : w * 2 ^ s <= x <= w * 2 ^ s + 2 ^ s - 1) by lia.
  split; [exact Hrange |].
  pose proof (Z.log2_spec w ltac:(lia)) as [HE1 HE2].
  pose proof (Z.log2_nonneg w) as Hnn.
  rewrite Z.pow_succ_r in HE2 by assumption.
  assert (HE : 0 < 2 ^ Z.log2 w) by (apply Z.pow_pos_nonneg; lia).
  rewrite <- Z.pow_add_r by assumption.
  f_equal. apply Z.log2_unique; [lia |].
  rewrite Z.pow_succ_r, Z.pow_add_r by lia.
  assert (2 ^ Z.log2 w * 2 ^ s <= w * 2 ^ s)
    by (apply Z.mul_le_mono_nonneg_r; lia).
  assert ((w + 1) * 2 ^ s <= 2 * 2 ^ Z.log2 w * 2 ^ s)
    by (apply Z.mul_le_mono_nonneg_r; lia).
  lia.
Qed.

(** What the run over a class says about each of its members. *)
Lemma class_within_sound (n r s c x : Z) :
  0 <= s -> 1 <= c -> x / 2 ^ s = c ->
  class_within n r s c = true -> within_ulps n x r.
Proof.
  intros Hs Hc Hdiv Hok.
  destruct (pow2_log2_class s c x Hs Hc Hdiv) as [Hrange Hlog].
  unfold class_within in Hok. unfold within_ulps. rewrite Hlog.
  set (P := 2 ^ s) in *. set (E := 2 ^ Z.log2 c * P) in *.
  set (lo := c * P) in *.
  apply andb_prop in Hok as [Hlo Hhi].
  apply Z.leb_le in Hlo, Hhi. lia.
Qed.

Lemma class_rel_sound (r s c x : Z) :
  0 <= s -> 1 <= c -> x / 2 ^ s = c ->
  class_rel r s c = true -> within_rel x r.
Proof.
  intros Hs Hc Hdiv Hok.
  destruct (pow2_log2_class s c x Hs Hc Hdiv) as [Hrange _].
  unfold class_rel in Hok. unfold within_rel.
  set (P := 2 ^ s) in *. set (lo := c * P) in *.
  apply andb_prop in Hok as [Hlo Hhi].
  apply Z.leb_le in Hlo, Hhi. lia.
Qed.

(** The classes of a 32-bit argument are those of [x >> t]. *)
Lemma div_pow2_twice (x t s : Z) :
  0 <= t -> 0 <= s -> x / 2 ^ t / 2 ^ s = x / 2 ^ (s + t).
Proof.
  intros Ht Hs.
  assert (HPt : 0 < 2 ^ t) by (apply Z.pow_pos_nonneg; lia).
  assert (HPs : 0 < 2 ^ s) by (apply Z.pow_pos_nonneg; lia).
  rewrite Z.div_div by lia.
  now rewrite Z.pow_add_r, Z.mul_comm by assumption.
Qed.

(** One 32-bit entry point: [x >> t] is [w], the result is [back] of
    [pmfl_from w]. *)
Lemma roundtrip_shifted (t bias x : Z) :
  (t = 8 /\ bias = 0x1000) \/ (t = 16 /\ bias = 0x2000) ->
  256 <= x / 2 ^ t < 65536 ->
  let r := pmfl_to_u32 (i16 (pmfl_from_u16 (x / 2 ^ t) + bias)) in
  within_rel x r /\ within_ulps 2 x r
  /\ (512 <= x / 2 ^ t -> within_ulps 1 x r).
Proof.
  intros Hcase Hw r. set (w := x / 2 ^ t) in *.
  assert (Ht : 0 <= t) by lia.
  assert (Hx : 1 <= x).
  { destruct (Z.lt_ge_cases x 1) as [Hneg | Hpos]; [| exact Hpos].
    assert (w <= 0); [| lia].
    unfold w. apply Z.div_le_upper_bound;
      [apply Z.pow_pos_nonneg; lia | lia]. }
  destruct (Z.lt_ge_cases w 512) as [Hnarrow | Hwide].
  - pose proof (all_from_spec _ _ _ narrow_all w ltac:(lia)) as Hok.
    unfold narrow_ok in Hok.
    apply andb_prop in Hok as [Hok H16w].
    apply andb_prop in Hok as [Hok H16r].
    apply andb_prop in Hok as [H8r H8w].
    split; [| split; [| intros; lia]].
    + destruct Hcase as [[-> ->] | [-> ->]];
        [apply (class_rel_sound _ 8 w) | apply (class_rel_sound _ 16 w)];
        try lia; try reflexivity; assumption.
    + destruct Hcase as [[-> ->] | [-> ->]];
        [apply (class_within_sound _ _ 8 w)
        | apply (class_within_sound _ _ 16 w)];
        try lia; try reflexivity; assumption.
  - destruct (prefix_of w ltac:(lia)) as (k & m & Hk & Hm & Hdiv & Hfrom).
    pose proof (prefix_ok_at k m Hk Hm) as Hok. unfold prefix_ok in Hok.
    apply andb_prop in Hok as [Hok H16].
    apply andb_prop in Hok as [Hok H8]. clear Hok.
    assert (H1 : within_ulps 1 x r).
    { unfold r. rewrite Hfrom.
      unfold w in Hdiv. rewrite div_pow2_twice in Hdiv by lia.
      destruct Hcase as [[-> ->] | [-> ->]];
        [apply (class_within_sound _ _ (k - 9 + 8) m)
        | apply (class_within_sound _ _ (k - 9 + 16) m)];
        try lia; assumption. }
    destruct (within_ulps_1_rel x r Hx H1) as [Hrel H2].
    split; [exact Hrel |]. split; [exact H2 | intros _; exact H1].
Qed.

(** The input 101119 lies in [2^16, 2^17), where the last place of the
    mantissa weighs 256; the round trip returns 100736, which is 383 away. *)
Lemma roundtrip_u32_exceeds_one_ulp :
  1 <= 101119 < 4294967296
  /\ roundtrip_u32 101119 = 100736
  /\ ~ within_ulps 1 101119 (roundtrip_u32 101119).
Proof.
  assert (Hr : roundtrip_u32 101119 = 100736) by (vm_compute; reflexivity).
  split; [lia |]. split; [exact Hr |].
  unfold within_ulps. rewrite Hr.
  change (2 ^ Z.log2 101119) with 65536. lia.
Qed.

(** C2, amended. For a 16-bit [x >= 1], [pmfl_to_u16 (pmfl_from x)] is
    within one unit in the last place of the 8-bit mantissa of [x].  For a
    32-bit [x >= 1], [pmfl_to_u32 (pmfl_from x)] has a relative error of at
    most 1/256 and is within two such units; it is within one unit except
    for [x] in [2^16, 2^17) and in [2^24, 2^25). *)
Theorem roundtrip_precision :
  (forall x, 1 <= x < 65536 ->
     within_ulps 1 x (roundtrip_u16 x) /\ within_rel x (roundtrip_u16 x))
  /\ (forall x, 1 <= x < 4294967296 ->
     within_rel x (roundtrip_u32 x)
     /\ within_ulps 2 x (roundtrip_u32 x)
     /\ (~ 65536 <= x < 131072 -> ~ 16777216 <= x < 33554432 ->
         within_ulps 1 x (roundtrip_u32 x))).
Proof.
  assert (Hnarrow16 : forall x, 1 <= x < 65536 ->
            within_ulps 1 x (pmfl_to_u16 (pmfl_from_u16 x))
            /\ within_ulps 1 x (pmfl_to_u32 (pmfl_from_u16 x))).
  { intros x Hx. destruct (Z.lt_ge_cases x 512) as [Hsmall | Hbig].
    - pose proof (all_from_spec _ _ _ roundtrip_small_all x ltac:(lia)) as Hok.
      cbv beta in Hok. apply andb_prop in Hok as [H16 H32].
      unfold roundtrip_u16_ok, roundtrip_u16 in H16.
      unfold roundtrip_u32_low_ok in H32.
      apply Z.leb_le in H16, H32. unfold within_ulps. lia.
    - destruct (prefix_of x ltac:(lia)) as (k & m & Hk & Hm & Hdiv & Hfrom).
      pose proof (prefix_ok_at k m Hk Hm) as Hok. unfold prefix_ok in Hok.
      apply andb_prop in Hok as [Hok _].
      apply andb_prop in Hok as [Hok _].
      apply andb_prop in Hok as [Hok H32].
      apply andb_prop in Hok as [_ H16].
      rewrite Hfrom.
      split; apply (class_within_sound _ _ (k - 9) m); try lia; assumption. }
  split.
  - intros x Hx. destruct (Hnarrow16 x Hx) as [H1 _].
    split; [exact H1 | apply within_ulps_1_rel; [lia | exact H1]].
  - intros x Hx. unfold roundtrip_u32.
    destruct (Z.lt_ge_cases x 65536) as [Hlow | Hge].
    + rewrite pmfl_from_u32_low by lia.
      destruct (Hnarrow16 x ltac:(lia)) as [_ H1].
      destruct (within_ulps_1_rel x _ ltac:(lia) H1) as [Hrel H2].
      split; [exact Hrel |]. split; [exact H2 | intros _ _; exact H1].
    + destruct (Z.lt_ge_cases x 16777216) as [Hmid | Hhigh].
      * rewrite pmfl_from_u32_mid by lia.
        assert (Hw : 256 <= x / 256 < 65536).
        { split; [apply Z.div_le_lower_bound; lia
                 | apply Z.div_lt_upper_bound; lia]. }
        destruct (roundtrip_shifted 8 0x1000 x ltac:(left; split; reflexivity) Hw)
          as [Hrel [H2 H1]].
        split; [exact Hrel |]. split; [exact H2 |].
        intros Hn1 _. apply H1.
        apply Z.div_le_lower_bound; lia.
      * rewrite pmfl_from_u32_high by lia.
        assert (Hw : 256 <= x / 65536 < 65536).
        { split; [apply Z.div_le_lower_bound; lia
                 | apply Z.div_lt_upper_bound; lia]. }
        destruct (roundtrip_shifted 16 0x2000 x ltac:(right; split; reflexivity) Hw)
          as [Hrel [H2 H1]].
        split; [exact Hrel |]. split; [exact H2 |].
        intros _ Hn2. apply H1.
        apply Z.div_le_lower_bound; lia.
Qed.

Lemma roundtrip_precision_witness :
  within_ulps 1 1000 (roundtrip_u16 1000)
  /\ within_rel 101119 (roundtrip_u32 101119)
  /\ within_ulps 1 84000000 (roundtrip_u32 84000000).
Proof.
  destruct roundtrip_precision as [H16 H32].
  split; [apply (H16 1000); lia |].
  split; [apply (H32 101119); lia |].
  apply (H32 84000000); lia.
Defined.

End PoorManFloatFacts.

(** ** Properties of the ramp generator *)

Module RampGeneratorFacts.
Import Int RampGenerator IntFacts.
Local Open Scope ramp_scope.

(** Runs a method body down to the generator it returns. *)
Ltac run :=
  cbv beta delta
    [bind ret get put on_parameters on_ro on_rw assign_acceleration
     inject_fill_interrupt fasDisableInterrupts fasEnableInterrupts
     copy_parameters] in *;
  cbn beta iota zeta in *.

Lemma land_lor_same (a b : Z) : Z.land (Z.lor a b) a = a.
Proof.
  apply Z.bits_inj'; intros n _.
  rewrite Z.land_spec, Z.lor_spec.
  destruct (Z.testbit a n), (Z.testbit b n); reflexivity.
Qed.

(** A [uint32_t] holding a positive [int32_t] reads back as itself, and
    its unsigned negation reads back as the negative. *)
Lemma i32_of_positive (a : Z) : 0 < a < 2147483648 -> i32 a = a.
Proof. intros Ha. apply i32_id. unfold is_i32. lia. Qed.

Lemma i32_of_negated (a : Z) : 0 < a < 2147483648 -> i32 (u32 (- a)) = - a.
Proof.
  intros Ha. rewrite u32_mod.
  replace (- a) with (4294967296 - a + (-1) * 4294967296) by lia.
  rewrite Z.mod_add, Z.mod_small by lia.
  rewrite i32_mod.
  replace (4294967296 - a + 2147483648)
    with (2147483648 - a + 1 * 4294967296) by lia.
  rewrite Z.mod_add, Z.mod_small by lia. lia.
Qed.

Section AnyHeader.
Context {H : RampHeader}.

(** *** Frame of [_startMove] *)

Lemma _startMove_unchanged_position (target : Z) (g : RampGenerator) :
  _rw (snd (_startMove target false g)) = _rw g.
Proof.
  unfold _startMove. run.
  destruct (negb _); reflexivity.
Qed.

Lemma _startMove_acceleration (target : Z) (b : bool) (g : RampGenerator) :
  acceleration (snd (_startMove target b g)) = acceleration g.
Proof.
  unfold _startMove. run.
  destruct (negb _); [reflexivity |].
  destruct b; reflexivity.
Qed.

(** C1. While a positioning ramp is running (the generator is active
    and the applied configuration is not in keep-running mode), [moveTo]
    with the applied target position as its argument does not call
    [startRampIfNotRunning]: the write side, and with it
    [performed_ramp_up_steps], is the same after the call. *)
Theorem moveTo_same_target_keeps_ramp
    (position : Z) (queue_end : queue_end_s) (g : RampGenerator) :
  isRampGeneratorActive g = true ->
  keep_running (parameters (config (_ro g))) = false ->
  position = target_pos (parameters (config (_ro g))) ->
  _rw (snd (moveTo position queue_end g)) = _rw g
  /\ performed_ramp_up_steps (_rw (snd (moveTo position queue_end g)))
     = performed_ramp_up_steps (_rw g).
Proof.
  intros Hactive Hkeep Hpos.
  assert (Hrw : _rw (snd (moveTo position queue_end g)) = _rw g).
  { unfold moveTo. run. unfold curr_pos_of. rewrite Hactive, Hkeep. cbn [negb andb].
    rewrite <- Hpos, Z.eqb_refl. cbn [negb].
    pose proof (_startMove_unchanged_position position g) as Hframe.
    destruct (_startMove position false g) as [res g']. exact Hframe. }
  split; [exact Hrw | now rewrite Hrw].
Qed.

(** C9. When the generator is not active, or the applied configuration
    is in keep-running mode, [advanceTargetPosition] returns the
    generator as it found it: parameters, read side and write side. *)
Theorem advanceTargetPosition_noop
    (delta : Z) (queue : queue_end_s) (g : RampGenerator) :
  isRampGeneratorActive g = false
  \/ keep_running (parameters (config (_ro g))) = true ->
  advanceTargetPosition delta queue g = (tt, g).
Proof.
  intros Hcond. unfold advanceTargetPosition. run.
  destruct Hcond as [Hidle | Hkeep].
  - rewrite Hidle. reflexivity.
  - rewrite Hkeep, andb_false_r. reflexivity.
Qed.

(** *** The apply handshake *)

Lemma command_computation_parameters
    (queue_end : queue_end_s) (command : NextCommand) (g : RampGenerator) :
  _parameters (snd (command_computation queue_end command g))
  = _parameters g.
Proof.
  unfold command_computation. run.
  destruct (ro_isImmediateStopInitiated _); [reflexivity |].
  destruct (ro_isImmediateStopIncomplete _); cbn;
    destruct (_getNextCommand _ _ _ _) as [[ro' rw'] command'];
    reflexivity.
Qed.

(** C3. [getNextCommand] is the handshake followed by the command
    computation.  With [apply] set at entry the whole parameter record is
    assigned to [_ro.config.parameters] first, [update()] then runs on
    that configuration, and [apply], [any_change] and
    [recalc_ramp_steps] of [_parameters] are false from then on, also
    when [getNextCommand] returns.  With [apply] clear the handshake
    changes nothing. *)
Theorem getNextCommand_apply_handshake
    (queue_end : queue_end_s) (command : NextCommand) (g : RampGenerator) :
  let g1 := snd (apply_handshake g) in
  let g2 := snd (getNextCommand queue_end command g) in
  getNextCommand queue_end command g
  = command_computation queue_end command g1
  /\ (apply (_parameters g) = true ->
      parameters (config (_ro (snd (copy_parameters g)))) = _parameters g
      /\ config (_ro g1)
         = config_update (set_parameters (_parameters g) (config (_ro g)))
      /\ ((forall c, parameters (config_update c) = parameters c) ->
          parameters (config (_ro g1)) = _parameters g)
      /\ _parameters g1
         = set_recalc_ramp_steps false
             (set_any_change false (set_apply false (_parameters g)))
      /\ apply (_parameters g1) = false
      /\ any_change (_parameters g1) = false
      /\ recalc_ramp_steps (_parameters g1) = false
      /\ apply (_parameters g2) = false
      /\ any_change (_parameters g2) = false
      /\ recalc_ramp_steps (_parameters g2) = false
      /\ _rw g1 = _rw g /\ acceleration g1 = acceleration g)
  /\ (apply (_parameters g) = false ->
      g1 = g /\ config (_ro g1) = config (_ro g)
      /\ _parameters g2 = _parameters g).
Proof.
  intros g1 g2.
  assert (Hseq : getNextCommand queue_end command g
                 = command_computation queue_end command g1).
  { unfold getNextCommand, bind. subst g1.
    destruct (apply_handshake g) as [[] g']. reflexivity. }
  assert (Hp2 : _parameters g2 = _parameters g1).
  { subst g2. rewrite Hseq. apply command_computation_parameters. }
  split; [exact Hseq |].
  split; intros Happly.
  - assert (Hg1 : g1 =
      mk_generator (acceleration g)
        (set_recalc_ramp_steps false
           (set_any_change false (set_apply false (_parameters g))))
        (set_config
           (config_update (set_parameters (_parameters g) (config (_ro g))))
           (_ro g))
        (_rw g)).
    { subst g1. unfold apply_handshake. run. rewrite Happly. reflexivity. }
    rewrite Hp2, Hg1. cbn.
    repeat split; try reflexivity.
    intros Hkeep. now rewrite Hkeep.
  - assert (Hg1 : g1 = g).
    { subst g1. unfold apply_handshake. run. rewrite Happly. reflexivity. }
    rewrite Hp2, Hg1. repeat split; reflexivity.
Qed.

(** *** The sign of the current acceleration *)

(** C10. [getCurrentAcceleration] returns 0 when the ramp state has
    neither the accelerating nor the decelerating flag; it returns the
    configured acceleration, a positive number, when accelerating while
    counting up or decelerating while counting down, and its negation
    when decelerating while counting up or accelerating while counting
    down.  The flags are non-zero and the four case labels of the
    [switch] differ between the two groups, as C++ demands of the
    labels of one [switch]. *)
Theorem getCurrentAcceleration_sign (g : RampGenerator) :
  let s := rw_rampState (_rw g) in
  let acc := RAMP_STATE_ACCELERATING_FLAG in
  let dec := RAMP_STATE_DECELERATING_FLAG in
  let up := RAMP_DIRECTION_COUNT_UP in
  let down := RAMP_DIRECTION_COUNT_DOWN in
  acc <> 0 -> dec <> 0 ->
  Z.lor acc up <> Z.lor dec up -> Z.lor acc up <> Z.lor acc down ->
  Z.lor dec down <> Z.lor dec up -> Z.lor dec down <> Z.lor acc down ->
  0 < acceleration g < 2147483648 ->
  (Z.land s acc = 0 -> Z.land s dec = 0 ->
   getCurrentAcceleration g = 0)
  /\ (Z.land s acc = acc -> Z.land s dec = 0 ->
      Z.land s RAMP_DIRECTION_MASK = up ->
      getCurrentAcceleration g = acceleration g)
  /\ (Z.land s dec = dec -> Z.land s acc = 0 ->
      Z.land s RAMP_DIRECTION_MASK = down ->
      getCurrentAcceleration g = acceleration g)
  /\ (Z.land s dec = dec -> Z.land s acc = 0 ->
      Z.land s RAMP_DIRECTION_MASK = up ->
      getCurrentAcceleration g = - acceleration g)
  /\ (Z.land s acc = acc -> Z.land s dec = 0 ->
      Z.land s RAMP_DIRECTION_MASK = down ->
      getCurrentAcceleration g = - acceleration g).
Proof.
  intros s acc dec up down Hacc Hdec Hl1 Hl2 Hl3 Hl4 Hconf.
  unfold getCurrentAcceleration. fold s acc dec up down.
  rewrite !Z.land_lor_distr_r.
  assert (Hno : forall m f d,
             f <> 0 -> Z.land m f = 0 -> m <> Z.lor f d).
  { intros m f d Hf Hm Heq. apply Hf.
    rewrite <- (land_lor_same f d), <- Heq. exact Hm. }
  split; [| split; [| split; [| split]]].
  - intros Ha Hd. rewrite Ha, Hd. cbn [Z.lor].
    set (m := Z.land s RAMP_DIRECTION_MASK).
    assert (Hma : Z.land m acc = 0).
    { unfold m. rewrite <- Z.land_assoc, (Z.land_comm RAMP_DIRECTION_MASK),
        Z.land_assoc. fold acc. rewrite Ha. apply Z.land_0_l. }
    assert (Hmd : Z.land m dec = 0).
    { unfold m. rewrite <- Z.land_assoc, (Z.land_comm RAMP_DIRECTION_MASK),
        Z.land_assoc. fold dec. rewrite Hd. apply Z.land_0_l. }
    rewrite (proj2 (Z.eqb_neq _ _) (Hno m acc up Hacc Hma)).
    rewrite (proj2 (Z.eqb_neq _ _) (Hno m dec down Hdec Hmd)).
    rewrite (proj2 (Z.eqb_neq _ _) (Hno m dec up Hdec Hmd)).
    rewrite (proj2 (Z.eqb_neq _ _) (Hno m acc down Hacc Hma)).
    reflexivity.
  - intros Ha Hd Hm. rewrite Ha, Hd, Hm, Z.lor_0_r, Z.eqb_refl.
    cbn [orb]. now apply i32_of_positive.
  - intros Hd Ha Hm. rewrite Ha, Hd, Hm, Z.lor_0_l, Z.eqb_refl.
    rewrite orb_true_r. now apply i32_of_positive.
  - intros Hd Ha Hm. rewrite Ha, Hd, Hm, Z.lor_0_l, Z.eqb_refl.
    rewrite (proj2 (Z.eqb_neq (Z.lor dec up) (Z.lor acc up)) (not_eq_sym Hl1)).
    rewrite (proj2 (Z.eqb_neq (Z.lor dec up) (Z.lor dec down)) (not_eq_sym Hl3)).
    cbn [orb]. now apply i32_of_negated.
  - intros Ha Hd Hm. rewrite Ha, Hd, Hm, Z.lor_0_r, Z.eqb_refl.
    rewrite (proj2 (Z.eqb_neq (Z.lor acc down) (Z.lor acc up)) (not_eq_sym Hl2)).
    rewrite (proj2 (Z.eqb_neq (Z.lor acc down) (Z.lor dec down)) (not_eq_sym Hl4)).
    rewrite orb_true_r. cbn [orb]. now apply i32_of_negated.
Qed.

(** *** [setAcceleration], whatever the parameter record does with it *)

Lemma setAcceleration_rejected (accel : Z) (g : RampGenerator) :
  accel <= 0 -> setAcceleration accel g = (-1, g).
Proof.
  intros Ha. unfold setAcceleration.
  destruct (Z.leb_spec accel 0); [reflexivity | lia].
Qed.

Lemma setAcceleration_accepted (accel : Z) (g : RampGenerator) :
  0 < accel < 2147483648 ->
  setAcceleration accel g
  = (0, mk_generator accel
          (parameters_setAcceleration accel (_parameters g))
          (_ro g) (_rw g)).
Proof.
  intros Ha. unfold setAcceleration.
  destruct (Z.leb_spec accel 0); [lia |]. run.
  rewrite u32_id by (unfold is_u32; lia). reflexivity.
Qed.

End AnyHeader.

Lemma moveTo_same_target_keeps_ramp_witness :
  performed_ramp_up_steps
    (_rw (snd (moveTo (H := SpecHeader.header) 1000 (mk_queue_end 0)
                 SpecHeader.running)))
  = 17.
Proof.
  destruct (moveTo_same_target_keeps_ramp (H := SpecHeader.header)
              1000 (mk_queue_end 0) SpecHeader.running
              eq_refl eq_refl eq_refl) as [_ Hsteps].
  exact Hsteps.
Defined.

Lemma advanceTargetPosition_noop_witness :
  advanceTargetPosition (H := SpecHeader.header) 5 (mk_queue_end 0)
    SpecHeader.idle
  = (tt, SpecHeader.idle).
Proof.
  apply (advanceTargetPosition_noop (H := SpecHeader.header)).
  left. reflexivity.
Defined.

Lemma getNextCommand_apply_handshake_witness :
  let command :=
    mk_next (mk_command 0 0 0 true) (_rw SpecHeader.pending) in
  let g2 :=
    snd (getNextCommand (H := SpecHeader.header) (mk_queue_end 0) command
           SpecHeader.pending) in
  parameters
    (config (_ro (snd (apply_handshake (H := SpecHeader.header)
                         SpecHeader.pending))))
  = _parameters SpecHeader.pending
  /\ apply (_parameters g2) = false
  /\ any_change (_parameters g2) = false
  /\ recalc_ramp_steps (_parameters g2) = false.
Proof.
  intros command g2.
  destruct (getNextCommand_apply_handshake (H := SpecHeader.header)
              (mk_queue_end 0) command SpecHeader.pending)
    as [_ [Hset _]].
  destruct (Hset eq_refl)
    as (_ & _ & Hcopy & _ & _ & _ & _ & Ha & Hc & Hr & _).
  split; [apply Hcopy; intros c; reflexivity |].
  split; [exact Ha |]. split; [exact Hc | exact Hr].
Defined.

Lemma getCurrentAcceleration_sign_witness :
  getCurrentAcceleration (H := SpecHeader.header) SpecHeader.running = 1000.
Proof.
  destruct (getCurrentAcceleration_sign (H := SpecHeader.header)
              SpecHeader.running
              ltac:(vm_compute; discriminate)
              ltac:(vm_compute; discriminate)
              ltac:(vm_compute; discriminate)
              ltac:(vm_compute; discriminate)
              ltac:(vm_compute; discriminate)
              ltac:(vm_compute; discriminate)
              ltac:(cbn; lia)) as [_ [Hup _]].
  apply Hup; reflexivity.
Defined.

(** *** [setAcceleration] with the parameter record of the spec *)

(** C5. For [accel <= 0], [setAcceleration] returns the error code -1
    and the generator is as before: the stored acceleration, the
    parameters, the read and the write side.  For [accel > 0] it returns
    0, stores [accel] in the generator and in the parameter record, and
    the parameter record is marked changed; the other parameters and both
    ramp states are as before. *)
Theorem setAcceleration_checks_sign (accel : Z) (g : RampGenerator) :
  is_i32 accel ->
  let r := setAcceleration (H := SpecHeader.header) accel g in
  (accel <= 0 -> fst r = -1 /\ fst r <> 0 /\ snd r = g)
  /\ (0 < accel ->
      fst r = 0
      /\ acceleration (snd r) = accel
      /\ p_acceleration (_parameters (snd r)) = accel
      /\ any_change (_parameters (snd r)) = true
      /\ target_pos (_parameters (snd r)) = target_pos (_parameters g)
      /\ keep_running (_parameters (snd r)) = keep_running (_parameters g)
      /\ keep_running_count_up (_parameters (snd r))
         = keep_running_count_up (_parameters g)
      /\ apply (_parameters (snd r)) = apply (_parameters g)
      /\ _ro (snd r) = _ro g
      /\ _rw (snd r) = _rw g).
Proof.
  intros Hrange r. unfold is_i32 in Hrange. split; intros Ha.
  - subst r. rewrite setAcceleration_rejected by assumption.
    cbn. repeat split. discriminate.
  - subst r. rewrite setAcceleration_accepted by lia.
    cbn. rewrite u32_id by (unfold is_u32; lia).
    repeat split.
Qed.

Lemma setAcceleration_checks_sign_witness :
  setAcceleration (H := SpecHeader.header) (-5) SpecHeader.running
  = (-1, SpecHeader.running)
  /\ any_change
       (_parameters
          (snd (setAcceleration (H := SpecHeader.header) 2500
                  SpecHeader.running)))
     = true.
Proof.
  split.
  - destruct (setAcceleration_checks_sign (-5) SpecHeader.running
                ltac:(unfold is_i32; lia)) as [Hneg _].
    destruct (Hneg ltac:(lia)) as (Hres & _ & Hsame).
    rewrite (surjective_pairing (setAcceleration _ _)), Hres, Hsame.
    reflexivity.
  - destruct (setAcceleration_checks_sign 2500 SpecHeader.running
                ltac:(unfold is_i32; lia)) as [_ Hpos].
    destruct (Hpos ltac:(lia)) as (_ & _ & _ & Hdirty & _).
    exact Hdirty.
Defined.

End RampGeneratorFacts.

(** ** More about the logarithmic format *)

Module PoorManFloatMore.
Import Int PoorManFloat Precision Runs IntFacts PoorManFloatFacts.

(** *** Ranges of the conversions back *)

Lemma u16_range (z : Z) : 0 <= u16 z < 65536.
Proof. rewrite u16_mod. apply Z.mod_pos_bound. lia. Qed.

Lemma u32_range (z : Z) : 0 <= u32 z < 4294967296.
Proof. rewrite u32_mod. apply Z.mod_pos_bound. lia. Qed.

Lemma u8_id (z : Z) : 0 <= z < 256 -> u8 z = z.
Proof. intros Hz. rewrite u8_mod. now apply Z.mod_small. Qed.

Lemma pmfl_to_u16_range (x : Z) : 0 <= pmfl_to_u16 x < 65536.
Proof.
  unfold pmfl_to_u16.
  destruct (x <? 0); [lia |].
  destruct (x >=? 0x2000); [lia |].
  apply u16_range.
Qed.

Lemma pmfl_to_u32_range (x : Z) : 0 <= pmfl_to_u32 x < 4294967296.
Proof.
  unfold pmfl_to_u32.
  destruct (x <? 0); [lia |].
  destruct (x >=? 0x4000); [lia |].
  destruct (_ <? 0x10); apply u32_range.
Qed.

(** Steps add up. *)
Lemma nondecreasing_steps (f : Z -> Z) (lo hi : Z) :
  (forall z, lo <= z < hi -> f z <= f (z + 1)) ->
  forall a b, lo <= a -> a <= b -> b <= hi -> f a <= f b.
Proof.
  intros Hstep a b Ha Hab Hb.
  remember (Z.to_nat (b - a)) as n eqn:Hn.
  revert b Hab Hb Hn.
  induction n as [| n IH]; intros b Hab Hb Hn.
  - assert (b = a) by lia. subst b. lia.
  - specialize (IH (b - 1) ltac:(lia) ltac:(lia) ltac:(lia)).
    pose proof (Hstep (b - 1) ltac:(lia)) as Hlast.
    replace (b - 1 + 1) with b in Hlast by lia. lia.
Qed.

Lemma steps_of_run (f : Z -> Z) (n : nat) (lo : Z) :
  all_from (step_ok f) n lo = true ->
  forall a b, lo <= a -> a <= b -> b <= lo + Z.of_nat n -> f a <= f b.
Proof.
  intros Hrun. apply nondecreasing_steps.
  intros z Hz. pose proof (all_from_spec _ _ _ Hrun z Hz) as Hok.
  unfold step_ok in Hok. now apply Z.leb_le.
Qed.

(** *** The overloads of [pmfl_from] agree *)

Lemma pmfl_from_u16_low (x : Z) :
  0 <= x < 256 -> pmfl_from_u16 x = pmfl_from_u8 x.
Proof.
  intros Hx. unfold pmfl_from_u16.
  change 0xff00 with (Z.shiftl (Z.ones 8) 8).
  rewrite (high_field_zero x 8 8) by lia.
  destruct (Z.ltb_spec x (2 ^ 8)) as [_ | Hge]; [| lia].
  now rewrite u8_id.
Qed.

(** X1. The three overloads of [pmfl_from] return the same logarithm for
    the same number: the 32-bit one agrees with the 16-bit one on every
    16-bit argument, and both agree with the 8-bit one on every 8-bit
    argument. *)
Theorem pmfl_from_overloads_agree (x : Z) :
  (0 <= x < 65536 -> pmfl_from_u32 x = pmfl_from_u16 x)
  /\ (0 <= x < 256 ->
      pmfl_from_u32 x = pmfl_from_u8 x /\ pmfl_from_u16 x = pmfl_from_u8 x).
Proof.
  split.
  - apply pmfl_from_u32_low.
  - intros Hx. rewrite pmfl_from_u32_low by lia.
    split; now apply pmfl_from_u16_low.
Qed.

Lemma pmfl_from_overloads_agree_witness :
  pmfl_from_u32 40000 = pmfl_from_u16 40000
  /\ pmfl_from_u32 200 = pmfl_from_u8 200.
Proof.
  split.
  - apply (pmfl_from_overloads_agree 40000). lia.
  - apply (pmfl_from_overloads_agree 200). lia.
Defined.

(** *** Exhaustive runs *)

Lemma power_all : all_from power_ok 32 0 = true.
Proof. vm_compute. reflexivity. Qed.

Lemma small_all : all_from small_ok 1023 1 = true.
Proof. vm_compute. reflexivity. Qed.

Lemma row_all : all_from (fun k => all_from (row_ok k) 512 512) 7 9 = true.
Proof. vm_compute. reflexivity. Qed.

Lemma to_u16_steps_all :
  all_from (step_ok pmfl_to_u16) (Z.to_nat 8192) 0 = true.
Proof. vm_compute. reflexivity. Qed.

Lemma to_u32_steps_all :
  all_from (step_ok pmfl_to_u32) (Z.to_nat 16384) 0 = true.
Proof. vm_compute. reflexivity. Qed.

Lemma doubling_all :
  all_from doubling_ok (Z.to_nat 11264) 0x1200 = true.
Proof. vm_compute. reflexivity. Qed.

Lemma reencode_all :
  all_from reencode_ok (Z.to_nat 12288) 0x1000 = true.
Proof. vm_compute. reflexivity. Qed.

Lemma exact_u8_all : all_from exact_u8_ok 255 1 = true.
Proof. vm_compute. reflexivity. Qed.

(** *** Powers of two *)

(** X2. A power of two [2^k], [k] from 0 to 31, converts to exactly
    [512 * k], and [512 * k] converts back to exactly [2^k] (through
    [pmfl_to_u16] as well while [k <= 15]). *)
Theorem pmfl_powers_of_two_exact (k : Z) :
  0 <= k <= 31 ->
  pmfl_from_u32 (2 ^ k) = 512 * k
  /\ pmfl_to_u32 (512 * k) = 2 ^ k
  /\ (k <= 15 -> pmfl_to_u16 (512 * k) = 2 ^ k).
Proof.
  intros Hk.
  pose proof (all_from_spec _ _ _ power_all k ltac:(lia)) as Hok.
  unfold power_ok in Hok.
  apply andb_prop in Hok as [Hok H16].
  apply andb_prop in Hok as [Hfrom Hto].
  apply Z.eqb_eq in Hfrom, Hto.
  split; [exact Hfrom |]. split; [exact Hto |].
  intros Hsmall. apply orb_prop in H16 as [Hbig | Heq].
  - apply Z.leb_le in Hbig. lia.
  - now apply Z.eqb_eq.
Qed.

Lemma pmfl_powers_of_two_exact_witness :
  pmfl_from_u32 (2 ^ 24) = 512 * 24 /\ pmfl_to_u32 (512 * 24) = 2 ^ 24.
Proof.
  destruct (pmfl_powers_of_two_exact 24 ltac:(lia)) as [Hfrom [Hto _]].
  split; assumption.
Defined.

(** *** The logarithm is bracketed by the leading bit *)

(** The leading bit and the ten leading bits, named. *)
Lemma prefix_log2 (w : Z) :
  512 <= w < 65536 ->
  9 <= Z.log2 w <= 15
  /\ 512 <= w / 2 ^ (Z.log2 w - 9) < 1024
  /\ pmfl_from_u16 w
     = from_u16_tail (w / 2 ^ (Z.log2 w - 9)) (Z.log2 w).
Proof.
  intros Hw.
  pose proof (Z.log2_spec w ltac:(lia)) as [Hlo Hhi].
  assert (H9 : 9 <= Z.log2 w) by (apply Z.log2_le_pow2; lia).
  assert (H16 : Z.log2 w < 16) by (apply Z.log2_lt_pow2; lia).
  assert (HP : 0 < 2 ^ (Z.log2 w - 9)) by (apply Z.pow_pos_nonneg; lia).
  assert (Hsplit : 2 ^ Z.log2 w = 2 ^ (Z.log2 w - 9) * 512).
  { replace (Z.log2 w) with (Z.log2 w - 9 + 9) at 1 by lia.
    now rewrite Z.pow_add_r by lia. }
  split; [lia |]. split.
  - rewrite Z.pow_succ_r in Hhi by lia.
    split; [apply Z.div_le_lower_bound; lia
           | apply Z.div_lt_upper_bound; lia].
  - rewrite <- Z.shiftr_div_pow2 by lia.
    apply pmfl_from_u16_msb; [lia |].
    replace (Z.log2 w + 1) with (Z.succ (Z.log2 w)) by lia. lia.
Qed.

Lemma row_ok_at (k m : Z) :
  9 <= k <= 15 -> 512 <= m < 1024 -> row_ok k m = true.
Proof.
  intros Hk Hm.
  pose proof (all_from_spec _ _ _ row_all k ltac:(lia)) as Hrow.
  apply (all_from_spec _ _ _ Hrow). lia.
Qed.

Lemma small_ok_at (x : Z) : 1 <= x < 1024 -> small_ok x = true.
Proof. intros Hx. apply (all_from_spec _ _ _ small_all). lia. Qed.

Lemma bracket_ok_spec (e v : Z) :
  bracket_ok e v = true -> 512 * e <= v <= 512 * (e + 1).
Proof.
  unfold bracket_ok. intros Hok. apply andb_prop in Hok as [Hlo Hhi].
  apply Z.leb_le in Hlo, Hhi. lia.
Qed.

Lemma pmfl_from_u16_bracket (x : Z) :
  1 <= x < 65536 ->
  512 * Z.log2 x <= pmfl_from_u16 x <= 512 * (Z.log2 x + 1).
Proof.
  intros Hx. destruct (Z.lt_ge_cases x 1024) as [Hsmall | Hbig].
  - pose proof (small_ok_at x ltac:(lia)) as Hok. unfold small_ok in Hok.
    apply andb_prop in Hok as [Hb _]. now apply bracket_ok_spec.
  - destruct (prefix_log2 x ltac:(lia)) as (Hk & Hm & Hfrom).
    pose proof (row_ok_at _ _ Hk Hm) as Hok. unfold row_ok in Hok.
    apply andb_prop in Hok as [Hb _]. rewrite Hfrom.
    now apply bracket_ok_spec.
Qed.

(** The leading bit of [x] is [s] places above that of [x / 2^s]. *)
Lemma log2_class (s w x : Z) :
  0 <= s -> 1 <= w -> x / 2 ^ s = w -> Z.log2 x = Z.log2 w + s.
Proof.
  intros Hs Hw Hdiv.
  destruct (pow2_log2_class s w x Hs Hw Hdiv) as [_ Hpow].
  rewrite <- Z.pow_add_r in Hpow by (try apply Z.log2_nonneg; lia).
  apply (Z.pow_inj_r 2); try lia.
  - apply Z.log2_nonneg.
  - pose proof (Z.log2_nonneg w). lia.
Qed.

Lemma div_range (x d : Z) :
  0 < d -> 256 * d <= x < 65536 * d -> 256 <= x / d < 65536.
Proof.
  intros Hd Hx.
  split; [apply Z.div_le_lower_bound; lia | apply Z.div_lt_upper_bound; lia].
Qed.

Lemma pmfl_from_u32_bracket (x : Z) :
  1 <= x < 4294967296 ->
  512 * Z.log2 x <= pmfl_from_u32 x <= 512 * (Z.log2 x + 1).
Proof.
  intros Hx. destruct (Z.lt_ge_cases x 65536) as [Hlow | Hge].
  - rewrite pmfl_from_u32_low by lia. apply pmfl_from_u16_bracket. lia.
  - destruct (Z.lt_ge_cases x 16777216) as [Hmid | Hhigh].
    + rewrite pmfl_from_u32_mid by lia.
      pose proof (div_range x 256 ltac:(lia) ltac:(lia)) as Hw.
      pose proof (pmfl_from_u16_bracket (x / 256) ltac:(lia)) as Hb.
      pose proof (pmfl_from_u16_bounds (x / 256) ltac:(lia)) as Hr.
      rewrite (log2_class 8 (x / 256) x) by (reflexivity || lia).
      rewrite i16_id by (unfold is_i16; lia). lia.
    + rewrite pmfl_from_u32_high by lia.
      pose proof (div_range x 65536 ltac:(lia) ltac:(lia)) as Hw.
      pose proof (pmfl_from_u16_bracket (x / 65536) ltac:(lia)) as Hb.
      pose proof (pmfl_from_u16_bounds (x / 65536) ltac:(lia)) as Hr.
      rewrite (log2_class 16 (x / 65536) x) by (reflexivity || lia).
      rewrite i16_id by (unfold is_i16; lia). lia.
Qed.

(** X3. The logarithm of [x] lies between 512 times the position of the
    leading bit of [x] and 512 times the next position, for every 32-bit
    [x >= 1] (the 16-bit overload included). *)
Theorem pmfl_from_bracketed_by_leading_bit (x : Z) :
  1 <= x < 4294967296 ->
  512 * Z.log2 x <= pmfl_from_u32 x <= 512 * (Z.log2 x + 1)
  /\ (x < 65536 ->
      512 * Z.log2 x <= pmfl_from_u16 x <= 512 * (Z.log2 x + 1)).
Proof.
  intros Hx. split.
  - now apply pmfl_from_u32_bracket.
  - intros H16. apply pmfl_from_u16_bracket. lia.
Qed.

Lemma pmfl_from_bracketed_by_leading_bit_witness :
  512 * Z.log2 21000000 <= pmfl_from_u32 21000000
  <= 512 * (Z.log2 21000000 + 1).
Proof.
  apply (pmfl_from_bracketed_by_leading_bit 21000000). lia.
Defined.

(** *** Order *)

Lemma tail_row_mono (k m m' : Z) :
  9 <= k <= 15 -> 512 <= m -> m <= m' -> m' < 1024 ->
  from_u16_tail m k <= from_u16_tail m' k.
Proof.
  intros Hk Hm Hmm Hm'.
  apply (nondecreasing_steps (fun z => from_u16_tail z k) 512 1023);
    try lia.
  intros z Hz. pose proof (row_ok_at k z Hk ltac:(lia)) as Hok.
  unfold row_ok in Hok. apply andb_prop in Hok as [_ Hstep].
  apply orb_prop in Hstep as [Hlast | Hstep].
  - apply Z.eqb_eq in Hlast. lia.
  - now apply Z.leb_le.
Qed.

Lemma pmfl_from_u16_mono_small (x y : Z) :
  1 <= x -> x <= y -> y <= 1024 -> pmfl_from_u16 x <= pmfl_from_u16 y.
Proof.
  intros Hx Hxy Hy.
  apply (nondecreasing_steps pmfl_from_u16 1 1024); try lia.
  intros z Hz. pose proof (small_ok_at z ltac:(lia)) as Hok.
  unfold small_ok in Hok. apply andb_prop in Hok as [_ Hstep].
  unfold step_ok in Hstep. now apply Z.leb_le.
Qed.

Lemma pmfl_from_u16_mono_big (x y : Z) :
  512 <= x -> x <= y -> y < 65536 -> pmfl_from_u16 x <= pmfl_from_u16 y.
Proof.
  intros Hx Hxy Hy.
  destruct (prefix_log2 x ltac:(lia)) as (Hkx & Hmx & Hfx).
  destruct (prefix_log2 y ltac:(lia)) as (Hky & Hmy & Hfy).
  pose proof (Z.log2_le_mono x y Hxy) as Hk.
  destruct (Z.eq_dec (Z.log2 x) (Z.log2 y)) as [Heq | Hne].
  - rewrite Hfx, Hfy, Heq in *.
    apply tail_row_mono; try lia.
    apply Z.div_le_mono; [apply Z.pow_pos_nonneg; lia | exact Hxy].
  - pose proof (pmfl_from_u16_bracket x ltac:(lia)).
    pose proof (pmfl_from_u16_bracket y ltac:(lia)). lia.
Qed.

Lemma pmfl_from_u16_mono (x y : Z) :
  1 <= x -> x <= y -> y < 65536 -> pmfl_from_u16 x <= pmfl_from_u16 y.
Proof.
  intros Hx Hxy Hy.
  destruct (Z.lt_ge_cases y 1024) as [Hsmall | Hbig].
  - apply pmfl_from_u16_mono_small; lia.
  - destruct (Z.lt_ge_cases x 512) as [Hxs | Hxb].
    + pose proof (pmfl_from_u16_mono_small x 512 Hx ltac:(lia) ltac:(lia)).
      pose proof (pmfl_from_u16_mono_big 512 y ltac:(lia) ltac:(lia) Hy).
      lia.
    + now apply pmfl_from_u16_mono_big.
Qed.

(** X4. [pmfl_from] preserves order: a larger integer never gets a
    smaller logarithm, over all 32-bit arguments from 1 on. *)
Theorem pmfl_from_monotone (x y : Z) :
  1 <= x -> x <= y -> y < 4294967296 ->
  pmfl_from_u32 x <= pmfl_from_u32 y.
Proof.
  intros Hx Hxy Hy.
  assert (Hshift : forall z d, 0 < d -> 256 * d <= z < 65536 * d ->
            4096 <= pmfl_from_u16 (z / d) <= 8192).
  { intros z d Hd Hz. pose proof (div_range z d Hd Hz) as Hw.
    pose proof (pmfl_from_u16_bounds (z / d) ltac:(lia)).
    pose proof (pmfl_from_u16_mono 256 (z / d) ltac:(lia) ltac:(lia)
                  ltac:(lia)) as Hlow.
    change (pmfl_from_u16 256) with 4096 in Hlow. lia. }
  assert (Hval : forall z, 1 <= z < 4294967296 ->
            (z < 65536 /\ pmfl_from_u32 z = pmfl_from_u16 z)
            \/ (65536 <= z < 16777216
                /\ pmfl_from_u32 z = pmfl_from_u16 (z / 256) + 4096)
            \/ (16777216 <= z
                /\ pmfl_from_u32 z = pmfl_from_u16 (z / 65536) + 8192)).
  { intros z Hz. destruct (Z.lt_ge_cases z 65536) as [Hlow | Hge].
    - left. split; [lia | apply pmfl_from_u32_low; lia].
    - destruct (Z.lt_ge_cases z 16777216) as [Hmid | Hhigh].
      + right. left. split; [lia |].
        rewrite pmfl_from_u32_mid by lia.
        pose proof (Hshift z 256 ltac:(lia) ltac:(lia)).
        apply i16_id. unfold is_i16. lia.
      + right. right. split; [lia |].
        rewrite pmfl_from_u32_high by lia.
        pose proof (Hshift z 65536 ltac:(lia) ltac:(lia)).
        apply i16_id. unfold is_i16. lia. }
  destruct (Hval x ltac:(lia)) as [[Rx Ex] | [[Rx Ex] | [Rx Ex]]];
    destruct (Hval y ltac:(lia)) as [[Ry Ey] | [[Ry Ey] | [Ry Ey]]];
    rewrite Ex, Ey; try lia.
  - apply pmfl_from_u16_mono; lia.
  - pose proof (pmfl_from_u16_bounds x ltac:(lia)).
    pose proof (Hshift y 256 ltac:(lia) ltac:(lia)). lia.
  - pose proof (pmfl_from_u16_bounds x ltac:(lia)).
    pose proof (Hshift y 65536 ltac:(lia) ltac:(lia)). lia.
  - pose proof (div_range x 256 ltac:(lia) ltac:(lia)).
    pose proof (div_range y 256 ltac:(lia) ltac:(lia)).
    pose proof (Z.div_le_mono x y 256 ltac:(lia) Hxy).
    pose proof (pmfl_from_u16_mono (x / 256) (y / 256) ltac:(lia)
                  ltac:(lia) ltac:(lia)). lia.
  - pose proof (Hshift x 256 ltac:(lia) ltac:(lia)).
    pose proof (Hshift y 65536 ltac:(lia) ltac:(lia)). lia.
  - pose proof (div_range x 65536 ltac:(lia) ltac:(lia)).
    pose proof (div_range y 65536 ltac:(lia) ltac:(lia)).
    pose proof (Z.div_le_mono x y 65536 ltac:(lia) Hxy).
    pose proof (pmfl_from_u16_mono (x / 65536) (y / 65536) ltac:(lia)
                  ltac:(lia) ltac:(lia)). lia.
Qed.

Lemma pmfl_from_monotone_witness :
  pmfl_from_u32 65535 <= pmfl_from_u32 65536.
Proof. apply pmfl_from_monotone; lia. Defined.

(** X5. [pmfl_to_u16] and [pmfl_to_u32] preserve order over all
    [int16_t] arguments, the saturated ends included. *)
Theorem pmfl_to_monotone (a b : Z) :
  is_i16 a -> is_i16 b -> a <= b ->
  pmfl_to_u16 a <= pmfl_to_u16 b /\ pmfl_to_u32 a <= pmfl_to_u32 b.
Proof.
  intros _ _ Hab.
  pose proof (pmfl_to_u16_range a). pose proof (pmfl_to_u16_range b).
  pose proof (pmfl_to_u32_range a). pose proof (pmfl_to_u32_range b).
  split.
  - destruct (Z.lt_ge_cases a 0) as [Hneg | Hpos].
    { unfold pmfl_to_u16 at 1.
      destruct (Z.ltb_spec a 0); [lia | lia]. }
    destruct (Z.lt_ge_cases b 0x2000) as [Hin | Hsat].
    + apply (steps_of_run _ _ _ to_u16_steps_all); lia.
    + unfold pmfl_to_u16 at 2.
      destruct (Z.ltb_spec b 0); [lia |].
      destruct (Z.geb_spec b 0x2000); [lia | lia].
  - destruct (Z.lt_ge_cases a 0) as [Hneg | Hpos].
    { unfold pmfl_to_u32 at 1.
      destruct (Z.ltb_spec a 0); [lia | lia]. }
    destruct (Z.lt_ge_cases b 0x4000) as [Hin | Hsat].
    + apply (steps_of_run _ _ _ to_u32_steps_all); lia.
    + unfold pmfl_to_u32 at 2.
      destruct (Z.ltb_spec b 0); [lia |].
      destruct (Z.geb_spec b 0x4000); [lia | lia].
Qed.

Lemma pmfl_to_monotone_witness :
  pmfl_to_u16 (-7) <= pmfl_to_u16 5000 /\ pmfl_to_u32 (-7) <= pmfl_to_u32 5000.
Proof. apply pmfl_to_monotone; unfold is_i16; lia. Defined.

(** *** Exact cases of the round trip *)

(** X6. An 8-bit integer from 1 on survives the round trip unchanged,
    through either conversion back and whichever overload encoded it. *)
Theorem pmfl_roundtrip_exact_u8 (x : Z) :
  1 <= x < 256 ->
  pmfl_to_u16 (pmfl_from_u8 x) = x
  /\ pmfl_to_u16 (pmfl_from_u16 x) = x
  /\ pmfl_to_u32 (pmfl_from_u32 x) = x.
Proof.
  intros Hx.
  pose proof (all_from_spec _ _ _ exact_u8_all x ltac:(lia)) as Hok.
  unfold exact_u8_ok in Hok. apply andb_prop in Hok as [H16 H32].
  apply Z.eqb_eq in H16, H32.
  rewrite pmfl_from_u32_low, pmfl_from_u16_low by lia.
  repeat split; assumption.
Qed.

Lemma pmfl_roundtrip_exact_u8_witness :
  pmfl_to_u32 (pmfl_from_u32 200) = 200.
Proof. apply (pmfl_roundtrip_exact_u8 200). lia. Defined.

(** X12. Decoding a logarithm from [0x1000] (the number 256) up to the
    top of the 32-bit range and encoding the result again gives the
    logarithm back to within two units. *)
Theorem pmfl_reencode_within_two (v : Z) :
  0x1000 <= v < 0x4000 ->
  Z.abs (pmfl_from_u32 (pmfl_to_u32 v) - v) <= 2.
Proof.
  intros Hv.
  pose proof (all_from_spec _ _ _ reencode_all v) as Hok.
  rewrite Z2Nat.id in Hok by lia. specialize (Hok ltac:(lia)).
  unfold reencode_ok in Hok. now apply Z.leb_le.
Qed.

Lemma pmfl_reencode_within_two_witness :
  Z.abs (pmfl_from_u32 (pmfl_to_u32 8510) - 8510) <= 2.
Proof. apply pmfl_reencode_within_two. lia. Defined.

(** *** The two conversions back *)

(** X7. Below [0x2000] the 32-bit conversion back is the 16-bit one:
    [pmfl_to_u32] differs from [pmfl_to_u16] only where the latter
    saturates. *)
Theorem pmfl_to_u32_extends_u16 (x : Z) :
  is_i16 x -> x < 0x2000 -> pmfl_to_u32 x = pmfl_to_u16 x.
Proof.
  intros _ Hx. unfold pmfl_to_u32.
  destruct (Z.ltb_spec x 0) as [Hneg | Hpos].
  - unfold pmfl_to_u16. destruct (Z.ltb_spec x 0); [reflexivity | lia].
  - destruct (Z.geb_spec x 0x4000) as [Hsat | _]; [lia |].
    rewrite u16_id by (unfold is_u16; lia).
    rewrite Z.shiftr_div_pow2 by lia.
    assert (Hq : 0 <= x / 2 ^ 9 < 16).
    { split; [apply Z.div_pos; lia | apply Z.div_lt_upper_bound; lia]. }
    rewrite u8_id by lia.
    destruct (Z.ltb_spec (x / 2 ^ 9) 0x10) as [_ | Hbig]; [| lia].
    apply u32_id. unfold is_u32.
    pose proof (pmfl_to_u16_range x). lia.
Qed.

Lemma pmfl_to_u32_extends_u16_witness :
  pmfl_to_u32 5102 = pmfl_to_u16 5102.
Proof. apply pmfl_to_u32_extends_u16; [unfold is_i16 |]; lia. Defined.

(** *** Shifts *)

Lemma pmfl_to_u32_double (v : Z) :
  0x1200 <= v < 0x3e00 -> pmfl_to_u32 (v + 512) = 2 * pmfl_to_u32 v.
Proof.
  intros Hv.
  pose proof (all_from_spec _ _ _ doubling_all v) as Hok.
  rewrite Z2Nat.id in Hok by lia. specialize (Hok ltac:(lia)).
  unfold doubling_ok in Hok. now apply Z.eqb_eq.
Qed.

Lemma pmfl_to_u32_scale (n : nat) :
  forall v, 0x1200 <= v -> v + 512 * Z.of_nat n < 0x4000 ->
  pmfl_to_u32 (v + 512 * Z.of_nat n) = 2 ^ Z.of_nat n * pmfl_to_u32 v.
Proof.
  induction n as [| n IH]; intros v Hlo Hhi.
  - rewrite Z.mul_0_r, Z.add_0_r. cbn [Z.of_nat Z.pow]. lia.
  - rewrite Nat2Z.inj_succ in *.
    replace (v + 512 * Z.succ (Z.of_nat n))
      with (v + 512 * Z.of_nat n + 512) by lia.
    rewrite pmfl_to_u32_double, IH, Z.pow_succ_r by lia. lia.
Qed.

Lemma pmfl_shl_value (x n : Z) :
  0 <= n < 64 -> is_i16 (x + 512 * n) -> pmfl_shl x n = x + 512 * n.
Proof.
  intros Hn Hfit. unfold pmfl_shl.
  rewrite (i16_id n) by (unfold is_i16; lia).
  rewrite Z.shiftl_mul_pow2 by lia. change (2 ^ 9) with 512.
  rewrite (Z.mul_comm n 512). now apply i16_id.
Qed.

(** X8. From the logarithm [0x1200] (the number 512) upwards,
    [pmfl_shl] by [n] multiplies the decoded integer by exactly [2^n], as
    long as the shifted logarithm stays below [0x4000]. *)
Theorem pmfl_shl_multiplies_by_power (v n : Z) :
  0x1200 <= v -> 0 <= n -> v + 512 * n < 0x4000 ->
  pmfl_to_u32 (pmfl_shl v n) = 2 ^ n * pmfl_to_u32 v.
Proof.
  intros Hv Hn Hfit.
  rewrite pmfl_shl_value by (unfold is_i16; lia).
  rewrite <- (Z2Nat.id n Hn) in *.
  now apply pmfl_to_u32_scale.
Qed.

Lemma pmfl_shl_multiplies_by_power_witness :
  pmfl_to_u32 (pmfl_shl 5102 10) = 2 ^ 10 * pmfl_to_u32 5102.
Proof. apply pmfl_shl_multiplies_by_power; lia. Defined.

(** X9. [pmfl_shr] undoes [pmfl_shl] and conversely, for every shift
    count of a [uint8_t]; for a count up to 31 the shift is the
    multiplication (division) by the logarithm of [2^n]. *)
Theorem pmfl_shifts_inverse (x n : Z) :
  is_i16 x -> 0 <= n < 256 ->
  pmfl_shr (pmfl_shl x n) n = x
  /\ pmfl_shl (pmfl_shr x n) n = x
  /\ (n <= 31 ->
      pmfl_shl x n = pmfl_multiply x (pmfl_from_u32 (2 ^ n))
      /\ pmfl_shr x n = pmfl_divide x (pmfl_from_u32 (2 ^ n))).
Proof.
  intros Hx Hn. unfold pmfl_shr, pmfl_shl.
  set (s := Z.shiftl (i16 n) 9).
  split; [| split].
  - unfold Z.sub. rewrite i16_add_l.
    replace (x + s + - s) with x by lia. now apply i16_id.
  - replace (i16 (x - s) + s) with (i16 (x + - s) + s) by (f_equal; f_equal; lia).
    rewrite i16_add_l.
    replace (x + - s + s) with x by lia. now apply i16_id.
  - intros Hsmall.
    pose proof (all_from_spec _ _ _ power_all n ltac:(lia)) as Hok.
    unfold power_ok in Hok.
    apply andb_prop in Hok as [Hok _]. apply andb_prop in Hok as [Hfrom _].
    apply Z.eqb_eq in Hfrom.
    unfold pmfl_multiply, pmfl_divide. rewrite Hfrom.
    unfold s. rewrite (i16_id n) by (unfold is_i16; lia).
    rewrite Z.shiftl_mul_pow2 by lia. change (2 ^ 9) with 512.
    rewrite (Z.mul_comm n 512). split; reflexivity.
Qed.

Lemma pmfl_shifts_inverse_witness :
  pmfl_shr (pmfl_shl 30000 200) 200 = 30000.
Proof.
  destruct (pmfl_shifts_inverse 30000 200 ltac:(unfold is_i16; lia)
              ltac:(lia)) as [Hinv _].
  exact Hinv.
Defined.

(** *** Squares and roots *)

Lemma pmfl_square_range (x : Z) :
  is_i16 x -> -0x7fff <= pmfl_square x <= 0x7fff.
Proof.
  intros Hx. unfold is_i16 in Hx. unfold pmfl_square.
  destruct (Z.geb_spec x 0x4000); [lia |].
  destruct (Z.leb_spec x (-0x4000)); [change (i16 0x8001) with (-0x7fff); lia |].
  rewrite i16_id by (unfold is_i16; lia). lia.
Qed.

(** X10. [pmfl_square] never returns the bit pattern [0x8000] reserved
    for zero, whatever [int16_t] it is given: its results stay within
    [-0x7fff .. 0x7fff].  Hence [pmfl_rsquare] is the exact negation of the
    square, is never [0x8000] either, and is [-2x] for [-0x4000 < x <
    0x4000]. *)
Theorem pmfl_square_avoids_sentinel (x : Z) :
  is_i16 x ->
  pmfl_square x <> sentinel
  /\ -0x7fff <= pmfl_square x <= 0x7fff
  /\ pmfl_rsquare x = - pmfl_square x
  /\ pmfl_rsquare x <> sentinel
  /\ (-0x4000 < x < 0x4000 -> pmfl_rsquare x = - (x + x)).
Proof.
  intros Hx. pose proof (pmfl_square_range x Hx) as Hr.
  assert (Hs : sentinel = -32768) by reflexivity.
  assert (Hrs : pmfl_rsquare x = - pmfl_square x).
  { unfold pmfl_rsquare, pmfl_reciprocal. apply i16_id. unfold is_i16. lia. }
  split; [lia |]. split; [exact Hr |]. split; [exact Hrs |].
  split; [lia |].
  intros Hin. rewrite Hrs. f_equal. unfold pmfl_square.
  destruct (Z.geb_spec x 0x4000); [lia |].
  destruct (Z.leb_spec x (-0x4000)); [lia |].
  apply i16_id. unfold is_i16. lia.
Qed.

Lemma pmfl_square_avoids_sentinel_witness :
  pmfl_square (-0x8000) <> sentinel /\ pmfl_rsquare 0x7fff <> sentinel.
Proof.
  split.
  - apply (pmfl_square_avoids_sentinel (-0x8000)). unfold is_i16. lia.
  - apply (pmfl_square_avoids_sentinel 0x7fff). unfold is_i16. lia.
Defined.




End PoorManFloatMore.

(** ** More about the ramp generator *)

Module RampGeneratorMore.
Import Int RampGenerator RampTerms IntFacts RampGeneratorFacts.
Local Open Scope ramp_scope.

Lemma i8_i8 (z : Z) : i8 (i8 z) = i8 z.
Proof.
  unfold i8. change 0xff with (Z.ones 8).
  rewrite !Z.land_ones by lia.
  pose proof (Z.mod_pos_bound (z + 0x80) (2 ^ 8) ltac:(lia)) as Hb.
  replace ((z + 0x80) mod 2 ^ 8 - 0x80 + 0x80)
    with ((z + 0x80) mod 2 ^ 8) by lia.
  now rewrite Z.mod_mod by lia.
Qed.

Section AnyHeader.
Context {H : RampHeader}.

(** *** The two outcomes of [_startMove] and of [startRun] *)

Lemma _startMove_invalid (target : Z) (b : bool) (g : RampGenerator) :
  valid_config g = false -> _startMove target b g = (config_error g, g).
Proof.
  unfold valid_config, config_error, _startMove. intros Hbad. run.
  rewrite Hbad. reflexivity.
Qed.

Lemma _startMove_valid (target : Z) (b : bool) (g : RampGenerator) :
  valid_config g = true ->
  _startMove target b g
  = (i8 MOVE_OK,
     mk_generator (acceleration g) (move_parameters target g)
       (set_force_stop false (_ro g))
       (if b then rw_startRampIfNotRunning (_rw g) else _rw g)).
Proof.
  unfold valid_config, move_parameters, _startMove. intros Hok. run.
  rewrite Hok. destruct b; reflexivity.
Qed.

Lemma startRun_invalid (countUp : bool) (g : RampGenerator) :
  valid_config g = false -> startRun countUp g = (config_error g, g).
Proof.
  unfold valid_config, config_error, startRun. intros Hbad. run.
  rewrite Hbad. reflexivity.
Qed.

Lemma startRun_valid (countUp : bool) (g : RampGenerator) :
  valid_config g = true ->
  startRun countUp g
  = (i8 MOVE_OK,
     mk_generator (acceleration g)
       (parameters_applyParameters
          (set_keep_running_count_up countUp
             (set_keep_running true
                (parameters_setTargetPosition 0 (_parameters g)))))
       (set_force_stop false (_ro g))
       (rw_startRampIfNotRunning (_rw g))).
Proof.
  unfold valid_config, startRun. intros Hok. run.
  rewrite Hok. reflexivity.
Qed.

Lemma _startMove_status (target : Z) (b : bool) (g : RampGenerator) :
  i8 (fst (_startMove target b g)) = fst (_startMove target b g).
Proof.
  destruct (valid_config g) eqn:Hv.
  - rewrite _startMove_valid by assumption. apply i8_i8.
  - rewrite _startMove_invalid by assumption. apply i8_i8.
Qed.

Lemma moveTo_as_startMove
    (position : Z) (queue_end : queue_end_s) (g : RampGenerator) :
  moveTo position queue_end g
  = _startMove position (negb (curr_pos_of queue_end g =? position)) g.
Proof.
  unfold moveTo. run.
  pose proof (_startMove_status position
                (negb (curr_pos_of queue_end g =? position)) g) as Hst.
  destruct (_startMove position _ g) as [res g']. cbn in Hst.
  now rewrite Hst.
Qed.

Lemma move_as_startMove
    (delta : Z) (queue_end : queue_end_s) (g : RampGenerator) :
  move delta queue_end g
  = _startMove (i32 (curr_pos_of queue_end g + delta))
      (negb (curr_pos_of queue_end g
             =? i32 (curr_pos_of queue_end g + delta))) g.
Proof. unfold move. run. reflexivity. Qed.

Lemma advanceTargetPosition_as_startMove
    (delta : Z) (queue : queue_end_s) (g : RampGenerator) :
  advanceTargetPosition delta queue g
  = if isRampGeneratorActive g
       && negb (keep_running (parameters (config (_ro g))))
    then (tt, snd (_startMove
                     (i32 (target_pos (parameters (config (_ro g))) + delta))
                     true g))
    else (tt, g).
Proof.
  unfold advanceTargetPosition. run.
  destruct (isRampGeneratorActive g && _); [| reflexivity].
  destruct (_startMove _ true g) as [res g']. reflexivity.
Qed.

(** *** Refused moves *)

(** X13. When [checkValidConfig] does not answer [MOVE_OK], [moveTo],
    [move], [startRun] and [_startMove] return that answer (as an
    [int8_t]) and [advanceTargetPosition] returns; in each case the
    generator is exactly as before: no parameter, flag or ramp state has
    been written. *)
Theorem moves_refused_leave_generator (g : RampGenerator) :
  valid_config g = false ->
  (forall target changed, _startMove target changed g = (config_error g, g))
  /\ (forall position queue_end,
        moveTo position queue_end g = (config_error g, g))
  /\ (forall delta queue_end, move delta queue_end g = (config_error g, g))
  /\ (forall countUp, startRun countUp g = (config_error g, g))
  /\ (forall delta queue, advanceTargetPosition delta queue g = (tt, g)).
Proof.
  intros Hbad. repeat split; intros.
  - now apply _startMove_invalid.
  - rewrite moveTo_as_startMove. now apply _startMove_invalid.
  - rewrite move_as_startMove. now apply _startMove_invalid.
  - now apply startRun_invalid.
  - rewrite advanceTargetPosition_as_startMove.
    rewrite _startMove_invalid by assumption.
    now destruct (isRampGeneratorActive g && _).
Qed.

(** *** [move] and [moveTo] *)

(** X14. [move] by [delta] is [moveTo] to the compared position plus
    [delta] (as an [int32_t]): same status, same generator. *)
Theorem move_is_relative_moveTo
    (delta : Z) (queue_end : queue_end_s) (g : RampGenerator) :
  move delta queue_end g
  = moveTo (i32 (curr_pos_of queue_end g + delta)) queue_end g.
Proof. now rewrite move_as_startMove, moveTo_as_startMove. Qed.

(** X15. In every state, a [moveTo] whose target is the position it is
    compared with (the applied target while a positioning ramp runs, the
    end of the queue otherwise) leaves the write side alone, and so does a
    [move] by 0. *)
Theorem unchanged_position_keeps_ramp
    (queue_end : queue_end_s) (g : RampGenerator) :
  is_i32 (curr_pos_of queue_end g) ->
  _rw (snd (moveTo (curr_pos_of queue_end g) queue_end g)) = _rw g
  /\ _rw (snd (move 0 queue_end g)) = _rw g.
Proof.
  intros Hpos.
  assert (Hsame : _rw (snd (moveTo (curr_pos_of queue_end g) queue_end g))
                  = _rw g).
  { rewrite moveTo_as_startMove, Z.eqb_refl. cbn [negb].
    apply _startMove_unchanged_position. }
  split; [exact Hsame |].
  rewrite move_as_startMove, Z.add_0_r, i32_id, Z.eqb_refl by assumption.
  cbn [negb]. apply _startMove_unchanged_position.
Qed.

(** *** Accepted moves *)

(** X16. On a valid configuration [moveTo] returns [MOVE_OK], clears
    [force_stop], publishes the new target through [_parameters], and
    hands the write side to [startRampIfNotRunning] exactly when the
    target differs from the compared position; [startRun] does the same
    and always hands the write side over. *)
Theorem accepted_moves_start_ramp
    (position : Z) (countUp : bool) (queue_end : queue_end_s)
    (g : RampGenerator) :
  valid_config g = true ->
  let m := moveTo position queue_end g in
  let r := startRun countUp g in
  fst m = i8 MOVE_OK
  /\ force_stop (_ro (snd m)) = false
  /\ _parameters (snd m) = move_parameters position g
  /\ _rw (snd m)
     = (if curr_pos_of queue_end g =? position then _rw g
        else rw_startRampIfNotRunning (_rw g))
  /\ fst r = i8 MOVE_OK
  /\ force_stop (_ro (snd r)) = false
  /\ _rw (snd r) = rw_startRampIfNotRunning (_rw g).
Proof.
  intros Hok m r. subst m r.
  rewrite moveTo_as_startMove, _startMove_valid, startRun_valid
    by assumption.
  cbn. repeat split.
  now destruct (curr_pos_of queue_end g =? position).
Qed.

(** *** What the application side never writes *)


(** *** What [getNextCommand] leaves alone *)

Lemma apply_handshake_frame (g : RampGenerator) :
  let g1 := snd (apply_handshake g) in
  acceleration g1 = acceleration g
  /\ _rw g1 = _rw g
  /\ target_pos (_parameters g1) = target_pos (_parameters g)
  /\ p_acceleration (_parameters g1) = p_acceleration (_parameters g)
  /\ min_travel_ticks (_parameters g1) = min_travel_ticks (_parameters g)
  /\ keep_running (_parameters g1) = keep_running (_parameters g)
  /\ keep_running_count_up (_parameters g1)
     = keep_running_count_up (_parameters g)
  /\ apply (_parameters g1) = false.
Proof.
  unfold apply_handshake. run.
  destruct (apply (_parameters g)) eqn:Happly; cbn; repeat split.
  exact Happly.
Qed.

Lemma command_computation_acceleration
    (queue_end : queue_end_s) (command : NextCommand) (g : RampGenerator) :
  acceleration (snd (command_computation queue_end command g))
  = acceleration g.
Proof.
  unfold command_computation. run.
  destruct (ro_isImmediateStopInitiated _); [reflexivity |].
  destruct (ro_isImmediateStopIncomplete _); cbn;
    destruct (_getNextCommand _ _ _ _) as [[ro' rw'] command'];
    reflexivity.
Qed.

Lemma getNextCommand_split
    (queue_end : queue_end_s) (command : NextCommand) (g : RampGenerator) :
  getNextCommand queue_end command g
  = command_computation queue_end command (snd (apply_handshake g)).
Proof.
  unfold getNextCommand, bind.
  destruct (apply_handshake g) as [[] g']. reflexivity.
Qed.

(** X18. [getNextCommand] changes nothing of the application's
    parameters but the three flags: the target position, the acceleration,
    the travel ticks and the keep-running mode and direction of
    [_parameters] are as before, and so is the [acceleration] member. *)
Theorem getNextCommand_keeps_parameters
    (queue_end : queue_end_s) (command : NextCommand) (g : RampGenerator) :
  let g2 := snd (getNextCommand queue_end command g) in
  acceleration g2 = acceleration g
  /\ target_pos (_parameters g2) = target_pos (_parameters g)
  /\ p_acceleration (_parameters g2) = p_acceleration (_parameters g)
  /\ min_travel_ticks (_parameters g2) = min_travel_ticks (_parameters g)
  /\ keep_running (_parameters g2) = keep_running (_parameters g)
  /\ keep_running_count_up (_parameters g2)
     = keep_running_count_up (_parameters g).
Proof.
  intros g2. subst g2. rewrite getNextCommand_split.
  rewrite command_computation_acceleration, command_computation_parameters.
  destruct (apply_handshake_frame g) as (Ha & _ & Ht & Hp & Hm & Hk & Hc & _).
  repeat split; assumption.
Qed.

(** X19. After [getNextCommand] the [apply] flag is clear, whether it
    was set at entry or not, so the handshake of the next call copies
    nothing unless the application has published again in between. *)
Theorem handshake_fires_once
    (queue_end : queue_end_s) (command : NextCommand) (g : RampGenerator) :
  let g2 := snd (getNextCommand queue_end command g) in
  apply (_parameters g2) = false
  /\ apply_handshake g2 = (tt, g2).
Proof.
  intros g2.
  assert (Hclear : apply (_parameters g2) = false).
  { subst g2. rewrite getNextCommand_split, command_computation_parameters.
    apply apply_handshake_frame. }
  split; [exact Hclear |].
  unfold apply_handshake. run. now rewrite Hclear.
Qed.

(** X20. When [clearImmediateStop] leaves neither immediate-stop
    condition standing, the two stop branches of [getNextCommand] are
    never taken: the write side reaches [_getNextCommand] as it was at
    entry, and the command and the two ramp states are the ones
    [_getNextCommand] returns. *)
Theorem getNextCommand_always_delegates
    (queue_end : queue_end_s) (command : NextCommand) (g : RampGenerator) :
  (forall r, ro_isImmediateStopInitiated (ro_clearImmediateStop r) = false) ->
  (forall r, ro_isImmediateStopIncomplete (ro_clearImmediateStop r) = false) ->
  let g1 := snd (apply_handshake g) in
  let out :=
    _getNextCommand (ro_clearImmediateStop (_ro g1)) (_rw g) queue_end command in
  fst (getNextCommand queue_end command g) = snd out
  /\ _ro (snd (getNextCommand queue_end command g)) = fst (fst out)
  /\ _rw (snd (getNextCommand queue_end command g)) = snd (fst out).
Proof.
  intros Hinit Hinc g1 out. subst out.
  rewrite getNextCommand_split. fold g1.
  destruct (apply_handshake_frame g) as (_ & Hrw & _). fold g1 in Hrw.
  rewrite <- Hrw.
  unfold command_computation. run.
  cbn [_ro _rw acceleration _parameters].
  rewrite Hinit, Hinc.
  cbn [_ro _rw acceleration _parameters].
  destruct (_getNextCommand _ _ _ _) as [[ro' rw'] command'].
  repeat split.
Qed.

(** *** The magnitude of the current acceleration *)

(** X21. Whatever the ramp state and the values of the [RAMP_*] macros,
    [getCurrentAcceleration] returns 0, the stored acceleration or its
    negation, once [setAcceleration] has accepted a value [accel]: its
    magnitude never exceeds [accel]. *)
Theorem getCurrentAcceleration_bounded (accel : Z) (g : RampGenerator) :
  0 < accel < 2147483648 ->
  let g' := snd (setAcceleration accel g) in
  fst (setAcceleration accel g) = 0
  /\ (getCurrentAcceleration g' = 0
      \/ getCurrentAcceleration g' = accel
      \/ getCurrentAcceleration g' = - accel)
  /\ Z.abs (getCurrentAcceleration g') <= accel.
Proof.
  intros Ha g'. subst g'.
  rewrite setAcceleration_accepted by assumption. cbn [fst snd].
  assert (Hcases :
    getCurrentAcceleration
      (mk_generator accel
         (parameters_setAcceleration accel (_parameters g)) (_ro g) (_rw g))
    = 0
    \/ getCurrentAcceleration
         (mk_generator accel
            (parameters_setAcceleration accel (_parameters g)) (_ro g) (_rw g))
       = accel
    \/ getCurrentAcceleration
         (mk_generator accel
            (parameters_setAcceleration accel (_parameters g)) (_ro g) (_rw g))
       = - accel).
  { unfold getCurrentAcceleration. cbn [acceleration _rw].
    destruct (_ || _).
    - right. left. now apply i32_of_positive.
    - destruct (_ || _).
      + right. right. now apply i32_of_negated.
      + left. reflexivity. }
  split; [reflexivity |]. split; [exact Hcases | lia].
Qed.

End AnyHeader.

Lemma moves_refused_leave_generator_witness :
  let g :=
    mk_generator 0 (mk_parameters 0 0 0 false true false false false)
      (_ro SpecHeader.idle) (_rw SpecHeader.idle) in
  moveTo (H := SpecHeader.header) 500 (mk_queue_end 0) g = (-2, g).
Proof.
  intros g.
  destruct (moves_refused_leave_generator (H := SpecHeader.header) g eq_refl)
    as (_ & Hmove & _).
  exact (Hmove 500 (mk_queue_end 0)).
Defined.

Lemma unchanged_position_keeps_ramp_witness :
  _rw (snd (move (H := SpecHeader.header) 0 (mk_queue_end 40)
              SpecHeader.idle))
  = _rw SpecHeader.idle.
Proof.
  apply (unchanged_position_keeps_ramp (H := SpecHeader.header)).
  unfold is_i32. cbn. lia.
Defined.

Lemma accepted_moves_start_ramp_witness :
  ramp_state
    (_rw (snd (moveTo (H := SpecHeader.header) 500 (mk_queue_end 0)
                 SpecHeader.idle)))
  = SpecHeader.RAMP_STATE_ACCELERATE.
Proof.
  destruct (accepted_moves_start_ramp (H := SpecHeader.header)
              500 true (mk_queue_end 0) SpecHeader.idle eq_refl)
    as (_ & _ & _ & Hrw & _).
  rewrite Hrw. reflexivity.
Defined.

Lemma getNextCommand_always_delegates_witness :
  _rw (snd (getNextCommand (H := SpecHeader.header) (mk_queue_end 0)
              (mk_next (mk_command 7 1 0 true) (_rw SpecHeader.idle))
              SpecHeader.pending))
  = _rw SpecHeader.pending.
Proof.
  destruct (getNextCommand_always_delegates (H := SpecHeader.header)
              (mk_queue_end 0)
              (mk_next (mk_command 7 1 0 true) (_rw SpecHeader.idle))
              SpecHeader.pending
              (fun r => eq_refl) (fun r => eq_refl))
    as (_ & _ & Hrw).
  rewrite Hrw. reflexivity.
Defined.

Lemma getCurrentAcceleration_bounded_witness :
  Z.abs
    (getCurrentAcceleration (H := SpecHeader.header)
       (snd (setAcceleration (H := SpecHeader.header) 2500
               SpecHeader.running)))
  <= 2500.
Proof.
  apply (getCurrentAcceleration_bounded (H := SpecHeader.header)). lia.
Defined.

End RampGeneratorMore.
